(** * MultimodalSolver.sample: a shallow embedding

    Source: [src/flow_matching/solver/multimodal_solver.py].

    Conventions of the embedding.
    - Entries of real-valued tensors are exact rationals ([Q]); dtype casts
      ([.to(dtype=...)], [.item()]) are the identity on them.
    - A tensor is its shape together with its entries in row-major order.
    - Tensors that the caller or the solver can mutate live in a store
      ([heap]); a Python reference to a tensor is an address into it.
      [x.clone()] allocates, [states[idx] = ...] rebinds, and
      [states[idx][mask] = ...] writes through the address.
    - The process-wide random source is explicit state ([gen]).
    - A Python exception is a value of [error]; the store stays as it was at
      the point where the exception was raised. *)

From Stdlib Require Import String.
From Stdlib Require Import List ZArith QArith Qround Qabs Bool Lia Lqa.
Import Corelib.Init.Datatypes.
Import ListNotations.

Set Implicit Arguments.

(** ** Python exceptions raised on the paths modelled here *)

Inductive error : Type :=
| ValueError
| NotImplementedError
| AssertionError
| IndexError
| ImportError
| TypeError
| UnboundLocalError
| ZeroDivisionError
| RuntimeError.

(** ** Small list utilities (Python list and tensor indexing) *)

Fixpoint zip_with {A B C : Type} (f : A -> B -> C) (l : list A) (m : list B)
  : list C :=
  match l, m with
  | a :: l', b :: m' => f a b :: zip_with f l' m'
  | _, _ => []
  end.

(** [l[i] = x] on a Python list, for [i] in range. *)
Fixpoint list_set {A : Type} (l : list A) (i : nat) (x : A) : list A :=
  match l, i with
  | [], _ => []
  | _ :: l', O => x :: l'
  | a :: l', S j => a :: list_set l' j x
  end.

Definition Qlt_bool (x y : Q) : bool := negb (Qle_bool y x).

Definition Qsum (l : list Q) : Q := fold_right Qplus 0%Q l.

Definition prod_shape (s : list nat) : nat := fold_right Nat.mul 1%nat s.

Definition list_nat_eqb (a b : list nat) : bool :=
  if list_eq_dec Nat.eq_dec a b then true else false.

(** ** Tensors *)

Inductive tensor : Type :=
| Float (shape : list nat) (data : list Q)
| Long (shape : list nat) (data : list nat).

Definition shape_of (x : tensor) : list nat :=
  match x with Float s _ => s | Long s _ => s end.

(** [t_discretization[i : i + 1].repeat(batch_size)] *)
Definition time_tensor (batch_size : nat) (t : Q) : tensor :=
  Float [batch_size] (repeat t batch_size).

(** [t[idx] + h], [h] a one-element tensor *)
Definition tensor_add_scalar (x : tensor) (h : Q) : tensor :=
  match x with
  | Float s d => Float s (map (fun e => (e + h)%Q) d)
  | Long s d => Float s (map (fun e => (inject_Z (Z.of_nat e) + h)%Q) d)
  end.

Definition float_data (x : tensor) : list Q :=
  match x with
  | Float _ d => d
  | Long _ d => map (fun e => inject_Z (Z.of_nat e)) d
  end.

(** [element in self] for one-dimensional tensors:
    [(element == self).any().item()], the comparison broadcasting. *)
Definition tensor_contains (self element : list Q) : error + bool :=
  if (length element =? length self)%nat
  then inr (existsb (fun b : bool => b) (zip_with Qeq_bool element self))
  else if (length element =? 1)%nat
  then inr (existsb (Qeq_bool (hd 0%Q element)) self)
  else if (length self =? 1)%nat
  then inr (existsb (fun e => Qeq_bool e (hd 0%Q self)) element)
  else inl RuntimeError.

(** The rows of a tensor along its last axis. *)
Definition rows (shape : list nat) (data : list Q) : list (list Q) :=
  let V := last shape 0%nat in
  map (fun r => firstn V (skipn (r * V) data))
      (seq 0 (prod_shape (removelast shape))).

(** [F.one_hot(x, num_classes=V)] on one entry; class values must be smaller
    than [num_classes]. *)
Definition one_hot (V : nat) (x : nat) : list bool :=
  map (fun v => (x =? v)%nat) (seq 0 V).

Definition one_hot_all (V : nat) (xs : list nat) : error + list (list bool) :=
  if forallb (fun x => (x <? V)%nat) xs
  then inr (map (one_hot V) xs)
  else inl RuntimeError.

Definition to_float (b : bool) : Q := if b then 1%Q else 0%Q.

(** ** External numeric primitives

    [torch.softmax] along the last axis (one row), [torch.rand], [torch.exp]
    and [flow_matching.utils.categorical] are used as given; nothing is
    assumed about them. *)

Record primitives : Type := {
  Rng : Type;
  softmax : list Q -> list Q;
  categorical : list (list Q) -> Rng -> list nat * Rng;
  rand : nat -> Rng -> list Q * Rng;
  exp : Q -> Q
}.

(** ** Configuration *)

Record scheduler_output : Type := { alpha_t : Q; d_alpha_t : Q }.

(** Modelled from the spec: [MixtureDiscreteProbPath] (flow_matching.path) is
    not part of the source at hand; the spec describes it as a schedule object
    exposing two coefficient functions of time. [scheduler] is applied to the
    time shared by the batch. *)
Record MixtureDiscreteProbPath : Type := {
  scheduler : Q -> scheduler_output
}.

(** A configuration dictionary that passed [_validate_configs]. *)
Inductive config : Type :=
| continuous
| discrete (path : MixtureDiscreteProbPath).

(** [div_free]: a float, or a callable applied to the modality's time
    tensor. *)
Inductive div_free_arg : Type :=
| DivConst (c : Q)
| DivFun (f : tensor -> Q).

(** [not div_free == 0.0] *)
Definition div_free_nonzero (d : div_free_arg) : bool :=
  match d with
  | DivConst c => negb (Qeq_bool c 0)
  | DivFun _ => true
  end.

(** [div_free(t[idx]) if callable(div_free) else div_free] *)
Definition div_free_at (d : div_free_arg) (t_idx : tensor) : Q :=
  match d with
  | DivConst c => c
  | DivFun f => f t_idx
  end.

(** What the model callable returns: a list or tuple, or anything else. *)
Inductive model_output : Type :=
| Seq (outputs : list tensor)
| NonSeq.

Record MultimodalSolver : Type := {
  model : list tensor -> list tensor -> model_output;
  modality_configs : list config;
  source_distribution_p : option (list nat * list Q)
}.

(** ** Time discretization (lines 160-176) *)

Record discretization : Type := {
  t_discretization : list Q;
  n_steps : Z;
  (** the local [t_final] is bound only on the numeric [step_size] branch *)
  t_final : option Q
}.

Definition uniform_points (t_init step_size : Q) (n : Z) : list Q :=
  map (fun i => (t_init + step_size * inject_Z (Z.of_nat i))%Q)
      (seq 0 (Z.to_nat n)).

Definition discretize (time_grid : list Q) (step_size : option Q)
  : error + discretization :=
  match step_size with
  | None =>
      inr {| t_discretization := time_grid;
             n_steps := Z.of_nat (length time_grid) - 1;
             t_final := None |}
  | Some h =>
      match time_grid with
      | [] => inl IndexError
      | t_init :: _ =>
          let t_fin := last time_grid t_init in
          if negb (Qlt_bool h (t_fin - t_init)) then inl AssertionError
          else if Qeq_bool h 0 then inl ZeroDivisionError
          else
            let n := Qceiling ((t_fin - t_init) / h) in
            inr {| t_discretization := uniform_points t_init h n ++ [t_fin];
                   n_steps := n;
                   t_final := Some t_fin |}
      end
  end.

(** [torch.argsort]: the indices that sort the grid in ascending order
    (ties keep their original order). *)
Fixpoint insert_index (g : list Q) (i : nat) (sorted : list nat) : list nat :=
  match sorted with
  | [] => [i]
  | j :: rest =>
      if Qle_bool (nth j g 0%Q) (nth i g 0%Q)
      then j :: insert_index g i rest
      else i :: j :: rest
  end.

Definition argsort (g : list Q) : list nat :=
  fold_left (fun acc i => insert_index g i acc) (seq 0 (length g)) [].

(** Modelled from the spec: [get_nearest_times] (flow_matching.solver.utils)
    is not part of the source at hand; the spec says it takes, for every time
    of the caller's grid, the nearest point of [t_discretization] (the first
    one among equally near points). *)
Definition nearest_time (t_disc : list Q) (g : Q) : Q :=
  match t_disc with
  | [] => g
  | d0 :: ds =>
      fold_left (fun best d =>
                   if Qlt_bool (Qabs (g - d)) (Qabs (g - best)) then d else best)
                ds d0
  end.

Definition get_nearest_times (time_grid t_disc : list Q) : list Q :=
  map (nearest_time t_disc) time_grid.

(** ** The discrete stepper's rate field (lines 254-281) *)

(** [u = d_k_t / (1 - k_t) * delta_1] on one coordinate *)
Definition rate_row (k_t d_k_t : Q) (delta_1 : list bool) : list Q :=
  map (fun e => (d_k_t / (1 - k_t) * to_float e)%Q) delta_1.

(** [div_free_t * d_k_t / (k_t * (1 - k_t)) * ((1 - k_t) * p_0 + k_t * delta_1)]
    on one coordinate; [p_0] is broadcast along the vocabulary axis. *)
Definition div_free_row (div_free_t k_t d_k_t : Q) (p_0 : list Q)
           (delta_1 : list bool) : list Q :=
  zip_with (fun p e =>
              (div_free_t * d_k_t / (k_t * (1 - k_t))
               * ((1 - k_t) * p + k_t * to_float e))%Q)
           p_0 delta_1.

Definition add_rows (u v : list Q) : list Q := zip_with Qplus u v.

(** Lines 257-270: the rate field before the self-transition is zeroed.
    Indexing [None] ([source_distribution_p] absent) is a [TypeError]. *)
Definition rate_field (source : option (list nat * list Q))
           (div_free_t k_t d_k_t : Q) (delta_1 : list (list bool))
  : error + list (list Q) :=
  let u := map (rate_row k_t d_k_t) delta_1 in
  if Qlt_bool 0 div_free_t then
    match source with
    | None => inl TypeError
    | Some (_, p_0) =>
        inr (zip_with add_rows u
                      (map (div_free_row div_free_t k_t d_k_t p_0) delta_1))
    end
  else inr u.

(** Lines 273-278: [torch.where(delta_t.to(dtype=torch.bool), zeros_like(u), u)] *)
Definition zero_self (delta_t : list bool) (u : list Q) : list Q :=
  zip_with (fun (b : bool) e => if b then 0%Q else e) delta_t u.

Definition zero_self_transitions (delta_t : list (list bool))
           (u : list (list Q)) : list (list Q) :=
  zip_with zero_self delta_t u.

(** [u[mask_jump]] *)
Fixpoint select {A : Type} (mask : list bool) (l : list A) : list A :=
  match mask, l with
  | true :: m, a :: l' => a :: select m l'
  | false :: m, _ :: l' => select m l'
  | _, _ => []
  end.

(** [x[mask_jump] = vals], written into a copy of the entries *)
Fixpoint scatter (mask : list bool) (vals cur : list nat) : list nat :=
  match cur, mask with
  | c :: cur', true :: m =>
      match vals with
      | v :: vs => v :: scatter m vs cur'
      | [] => c :: scatter m [] cur'
      end
  | c :: cur', false :: m => c :: scatter m vals cur'
  | _, _ => cur
  end.

(** [x_t + h * v] (line 224); operands of one shape. *)
Definition euler_update (h : Q) (x v : tensor) : error + tensor :=
  match x, v with
  | Float s xs, Float s' vs =>
      if list_nat_eqb s s'
      then inr (Float s (zip_with (fun a b => (a + h * b)%Q) xs vs))
      else inl RuntimeError
  | _, _ => inl RuntimeError
  end.

(** ** The store and the exception/state monad *)

Section Solver.

Variable P : primitives.

(** [TQDM_AVAILABLE], set when the module is imported. *)
Variable TQDM_AVAILABLE : bool.

Definition addr : Type := nat.

Record world : Type := { heap : list tensor; gen : Rng P }.

Definition M (A : Type) : Type := world -> (error + A) * world.

Definition ret {A : Type} (a : A) : M A := fun w => (inr a, w).

Definition raise {A : Type} (e : error) : M A := fun w => (inl e, w).

Definition bind {A B : Type} (m : M A) (k : A -> M B) : M B :=
  fun w =>
    match m w with
    | (inr a, w') => k a w'
    | (inl e, w') => (inl e, w')
    end.

Notation "x <- m ;; k" := (bind m (fun x => k))
  (at level 61, m at next level, right associativity).
Notation "m ;;; k" := (bind m (fun _ => k))
  (at level 61, right associativity).

Definition lift {A : Type} (r : error + A) : M A :=
  match r with inl e => raise e | inr a => ret a end.

Definition alloc (v : tensor) : M addr :=
  fun w => (inr (length (heap w)),
            {| heap := heap w ++ [v]; gen := gen w |}).

Definition load (a : addr) : M tensor :=
  fun w => match nth_error (heap w) a with
           | Some v => (inr v, w)
           | None => (inl RuntimeError, w)
           end.

Definition store (a : addr) (v : tensor) : M unit :=
  fun w => (inr tt, {| heap := list_set (heap w) a v; gen := gen w |}).

(** [x.clone()] *)
Definition clone (a : addr) : M addr := v <- load a ;; alloc v.

Definition draw_categorical (probs : list (list Q)) : M (list nat) :=
  fun w => let (xs, g) := categorical P probs (gen w) in
           (inr xs, {| heap := heap w; gen := g |}).

Definition draw_rand (n : nat) : M (list Q) :=
  fun w => let (rs, g) := rand P n (gen w) in
           (inr rs, {| heap := heap w; gen := g |}).

Fixpoint mapM {A B : Type} (f : A -> M B) (l : list A) : M (list B) :=
  match l with
  | [] => ret []
  | a :: l' => b <- f a ;; bs <- mapM f l' ;; ret (b :: bs)
  end.

(** [x if enable_grad else x.clone()] *)
Definition keep_or_clone (enable_grad : bool) (a : addr) : M addr :=
  if enable_grad then ret a else clone a.

(** [l[i]] on a Python list *)
Definition item {A : Type} (l : list A) (i : nat) : M A :=
  match nth_error l i with
  | Some a => ret a
  | None => raise IndexError
  end.

(** ** One modality, one step *)

(** [torch.rand(size=x.shape) < 1 - torch.exp(-h * intensity)] *)
Definition jump_mask (h : Q) (draws intensity : list Q) : list bool :=
  zip_with (fun r lam => Qlt_bool r (1 - exp P (- h * lam))%Q)
           draws intensity.

(** Lines 238-241: the shape assertion on the source distribution. *)
Definition check_source_shape (source : option (list nat * list Q))
           (vocabulary_size : nat) : M unit :=
  match source with
  | Some (s, _) =>
      if list_nat_eqb s [vocabulary_size] then ret tt
      else raise AssertionError
  | None => ret tt
  end.

(** Lines 226-289. [x] is the address bound to [states[idx]]; the result is
    the address bound to it afterwards. [t_i] is the time shared by the
    entries of [t_idx]. *)
Definition discrete_update (self : MultimodalSolver) (div_free : div_free_arg)
           (path : MixtureDiscreteProbPath) (i : nat) (n : Z)
           (t_i : Q) (t_idx : tensor) (h : Q) (x : addr)
           (model_out : tensor) : M addr :=
  match model_out with
  | Long _ _ => raise RuntimeError
  | Float [] _ => raise RuntimeError
  | Float shape data =>
      let p_1t := map (softmax P) (rows shape data) in
      x_1 <- draw_categorical p_1t ;;
      if (Z.of_nat i =? n - 1)%Z then
        alloc (Long (removelast shape) x_1)
      else
        let vocabulary_size := last shape 0%nat in
        check_source_shape (source_distribution_p self) vocabulary_size ;;;
        let k_t := alpha_t (scheduler path t_i) in
        let d_k_t := d_alpha_t (scheduler path t_i) in
        delta_1 <- lift (one_hot_all vocabulary_size x_1) ;;
        let div_free_t := div_free_at div_free t_idx in
        u <- lift (rate_field (source_distribution_p self)
                              div_free_t k_t d_k_t delta_1) ;;
        x_t <- load x ;;
        match x_t with
        | Float _ _ => raise RuntimeError
        | Long s cur =>
            if negb (list_nat_eqb s (removelast shape)) then raise RuntimeError
            else
              delta_t <- lift (one_hot_all vocabulary_size cur) ;;
              let u := zero_self_transitions delta_t u in
              let intensity := map Qsum u in
              draws <- draw_rand (prod_shape s) ;;
              let mask_jump := jump_mask h draws intensity in
              if existsb (fun b : bool => b) mask_jump then
                new <- draw_categorical (select mask_jump u) ;;
                store x (Long s (scatter mask_jump new cur)) ;;;
                ret x
              else ret x
        end
  end.

(** Lines 222-224: the continuous modality is rebound to a fresh tensor. *)
Definition continuous_update (h : Q) (x : addr) (model_out : tensor)
  : M addr :=
  x_t <- load x ;;
  x_next <- lift (euler_update h x_t model_out) ;;
  alloc x_next.

(** Lines 219-292: [for idx, config in enumerate(self.modality_configs)]. *)
Fixpoint update_modalities (self : MultimodalSolver) (div_free : div_free_arg)
         (i : nat) (n : Z) (t_i h : Q) (outputs : list tensor)
         (configs : list config) (idx : nat)
         (states : list addr) (t : list tensor)
  : M (list addr * list tensor) :=
  match configs with
  | [] => ret (states, t)
  | config :: rest =>
      model_out <- item outputs idx ;;
      x <- item states idx ;;
      t_idx <- item t idx ;;
      x' <- match config with
            | continuous => continuous_update h x model_out
            | discrete path =>
                discrete_update self div_free path i n t_i t_idx h x model_out
            end ;;
      update_modalities self div_free i n t_i h outputs rest (S idx)
                        (list_set states idx x')
                        (list_set t idx (tensor_add_scalar t_idx h))
  end.

(** Lines 296-299: [for idx, s in enumerate(states)]. *)
Fixpoint record_intermediates (enable_grad : bool) (time_grid : list Q)
         (states : list addr) (idx : nat) (t : list tensor)
         (intermediates : list (list addr)) : M (list (list addr)) :=
  match states with
  | [] => ret intermediates
  | s :: rest =>
      t_idx <- item t idx ;;
      hit <- lift (tensor_contains time_grid (float_data t_idx)) ;;
      intermediates' <-
        (if hit : bool then
           traj <- item intermediates idx ;;
           a <- keep_or_clone enable_grad s ;;
           ret (list_set intermediates idx (traj ++ [a]))
         else ret intermediates) ;;
      record_intermediates enable_grad time_grid rest (S idx) t intermediates'
  end.

(** ** The loop body (lines 205-304)

    Lines 301-304 only write fields of the progress display and are left
    out. *)
Definition step (self : MultimodalSolver) (div_free : div_free_arg)
           (return_intermediates enable_grad : bool)
           (d : discretization) (time_grid : list Q) (batch_size : nat)
           (i : nat) (st : list addr * list (list addr))
  : M (list addr * list (list addr)) :=
  let (states, intermediates) := st in
  let t_i := nth i (t_discretization d) 0%Q in
  let t := repeat (time_tensor batch_size t_i) (length states) in
  let h := (nth (S i) (t_discretization d) 0 - t_i)%Q in
  xs <- mapM load states ;;
  match model self xs t with
  | NonSeq => raise TypeError
  | Seq outputs =>
      if negb (length outputs =? length states)%nat then raise TypeError
      else
        st' <- update_modalities self div_free i (n_steps d) t_i h outputs
                                 (modality_configs self) 0 states t ;;
        let (states', t') := st' : list addr * list tensor in
        intermediates' <-
          (if return_intermediates
           then record_intermediates enable_grad time_grid states' 0 t'
                                     intermediates
           else ret intermediates) ;;
        ret (states', intermediates')
  end.

(** [for i in range(n_steps)], from step [i] on, [count] steps left. *)
Fixpoint steps (self : MultimodalSolver) (div_free : div_free_arg)
         (return_intermediates enable_grad : bool)
         (d : discretization) (time_grid : list Q) (batch_size : nat)
         (count i : nat) (st : list addr * list (list addr))
  : M (list addr * list (list addr)) :=
  match count with
  | O => ret st
  | S count' =>
      st' <- step self div_free return_intermediates enable_grad d time_grid
                  batch_size i st ;;
      steps self div_free return_intermediates enable_grad d time_grid
            batch_size count' (S i) st'
  end.

(** ** [MultimodalSolver.sample] *)

Inductive sample_result : Type :=
| States (states : list addr)
| Trajectories (intermediates : list (list addr)).

(** Lines 178-184: the order and the grid used for recording. *)
Definition recording_plan (step_size : option Q) (return_intermediates : bool)
           (time_grid t_disc : list Q) : list nat * list Q :=
  match step_size with
  | Some _ =>
      if return_intermediates
      then (argsort time_grid, get_nearest_times time_grid t_disc)
      else ([], time_grid)
  | None => ([], time_grid)
  end.

(** Lines 195-202: building the progress display reads the local [t_final]. *)
Definition open_progress (verbose : bool) (d : discretization) : M unit :=
  if verbose then
    if negb TQDM_AVAILABLE then raise ImportError
    else match t_final d with
         | None => raise UnboundLocalError
         | Some _ => ret tt
         end
  else ret tt.

Definition sample (self : MultimodalSolver) (x_init : list addr)
           (step_size : option Q) (div_free : div_free_arg)
           (method : string) (time_grid : list Q)
           (return_intermediates enable_grad verbose : bool)
  : M sample_result :=
  if negb (length x_init =? length (modality_configs self))%nat
  then raise ValueError
  else if negb (String.eqb method "euler"%string) then raise NotImplementedError
  else if div_free_nonzero div_free
          && match source_distribution_p self with
             | None => true
             | Some _ => false
             end
  then raise AssertionError
  else
    x0 <- item x_init 0 ;;
    v0 <- load x0 ;;
    batch_size <- item (shape_of v0) 0 ;;
    d <- lift (discretize time_grid step_size) ;;
    let (order, time_grid') :=
      recording_plan step_size return_intermediates time_grid
                     (t_discretization d) in
    states <- mapM (keep_or_clone enable_grad) x_init ;;
    intermediates <-
      (if return_intermediates
       then mapM (fun x => a <- keep_or_clone enable_grad x ;; ret [a]) x_init
       else ret []) ;;
    open_progress verbose d ;;;
    st <- steps self div_free return_intermediates enable_grad d time_grid'
                batch_size (Z.to_nat (n_steps d)) 0 (states, intermediates) ;;
    let (states', intermediates') := st : list addr * list (list addr) in
    if return_intermediates then
      match step_size with
      | None => ret (Trajectories intermediates')
      | Some _ =>
          reordered <- mapM (fun traj => mapM (item traj) order)
                            intermediates' ;;
          ret (Trajectories reordered)
      end
    else ret (States states').

End Solver.

(** ** A deterministic instance of the primitives

    The theorems below hold for every choice of the primitives; this
    instance only serves to run [sample] on concrete inputs. The categorical
    draw takes the first entry of largest weight of every row, every uniform
    draw is 0, and [exp x] is [1 / (1 - x)], which is 1 at 0 and below 1 on
    negative arguments. *)

Definition argmax (row : list Q) : nat :=
  snd (fold_left
         (fun (acc : Q * nat * nat) e =>
            let '(best, i, at_best) := acc in
            if Qlt_bool best e then (e, S i, i) else (best, S i, at_best))
         (tl row) (hd 0%Q row, 1%nat, 0%nat)).

Definition fixed_primitives : primitives := {|
  Rng := nat;
  softmax := fun row => row;
  categorical := fun probs g => (map argmax probs, S g);
  rand := fun n g => (repeat 0%Q n, S g);
  exp := fun x => (1 / (1 - x))%Q
|}.

Definition fixed_world (h : list tensor) : world fixed_primitives :=
  @Build_world fixed_primitives h 0%nat.

(** The tensors a result refers to, entries in lowest terms. *)
Definition reduce (x : tensor) : tensor :=
  match x with
  | Float s d => Float s (map Qred d)
  | Long s d => Long s d
  end.

Definition read {P : primitives} (w : world P) (a : addr) : option tensor :=
  option_map reduce (nth_error (heap w) a).

Definition observe {P : primitives} (r : (error + sample_result) * world P)
  : error + list (list (option tensor)) :=
  match r with
  | (inr (States states), w) => inr (map (fun a => [read w a]) states)
  | (inr (Trajectories tr), w) => inr (map (map (read w)) tr)
  | (inl e, _) => inl e
  end.

(** A model that returns the same outputs at every call. *)
Definition constant_model (outputs : model_output)
  : list tensor -> list tensor -> model_output :=
  fun _ _ => outputs.

(** The linear schedule [alpha(t) = t]. *)
Definition linear_path : MixtureDiscreteProbPath :=
  {| scheduler := fun t => {| alpha_t := t; d_alpha_t := 1%Q |} |}.

(** ** Concrete solvers used in the examples *)

(** One discrete modality over two classes; the model always puts all the
    weight on class 1. *)
Definition two_class_solver : MultimodalSolver :=
  {| model := constant_model (Seq [Float [1; 2]%nat [0; 1]%Q]);
     modality_configs := [discrete linear_path];
     source_distribution_p := None |}.

(** One continuous modality; the model always returns the velocity 1, so
    that from the state 0 at time 0 the state at time [t] is [t]. *)
Definition unit_velocity_solver : MultimodalSolver :=
  {| model := constant_model (Seq [Float [1%nat] [1%Q]]);
     modality_configs := [continuous];
     source_distribution_p := None |}.

(** One continuous modality with the constant velocity 2. *)
Definition double_velocity_solver : MultimodalSolver :=
  {| model := constant_model (Seq [Float [1%nat] [2%Q]]);
     modality_configs := [continuous];
     source_distribution_p := None |}.

(** Velocity 1 as long as the state is 0; afterwards the model no longer
    returns a sequence. *)
Definition failing_model (states _ : list tensor) : model_output :=
  match states with
  | [Float _ [x]] => if Qeq_bool x 0 then Seq [Float [1%nat] [1%Q]] else NonSeq
  | _ => NonSeq
  end.

Definition failing_solver : MultimodalSolver :=
  {| model := failing_model;
     modality_configs := [continuous];
     source_distribution_p := None |}.

(** One continuous modality with a batch of two, velocity 1. *)
Definition pair_velocity_solver : MultimodalSolver :=
  {| model := constant_model (Seq [Float [2%nat] [1; 1]%Q]);
     modality_configs := [continuous];
     source_distribution_p := None |}.

(** ** Stores that keep a given prefix

    [framed h0 m post]: run from a store that starts with [h0], the
    computation [m] ends, normally or not, in a store that still starts with
    [h0], and a normal result satisfies [post]. An address is [fresh] when it
    lies beyond [h0]. *)

Definition extends {P : primitives} (h0 : list tensor) (w : world P) : Prop :=
  exists rest, heap w = h0 ++ rest.

Definition fresh (h0 : list tensor) (a : addr) : Prop :=
  (length h0 <= a)%nat.

Definition framed {P : primitives} {A : Type} (h0 : list tensor)
           (m : M P A) (post : A -> Prop) : Prop :=
  forall w, extends h0 w ->
    extends h0 (snd (m w))
    /\ forall a, fst (m w) = inr a -> post a.

(** ** Construction: [__init__] and [_validate_configs] (lines 60-96)

    The arguments of the constructor are arbitrary Python objects. A
    dictionary is the list of its entries with string keys (keys of other
    types are never looked up here); [PyOther] stands for any object that is
    neither a string, a list, a dictionary nor a [MixtureDiscreteProbPath]. *)

Local Set Warnings "-register-all".

Inductive pyval : Type :=
| PyStr (s : string)
| PyList (items : list pyval)
| PyDict (entries : list (string * pyval))
| PyPath (path : MixtureDiscreteProbPath)
| PyOther.

(** [config[key]], [None] when [key not in config] *)
Fixpoint dict_get (entries : list (string * pyval)) (key : string)
  : option pyval :=
  match entries with
  | [] => None
  | (k, v) :: rest => if String.eqb k key then Some v else dict_get rest key
  end.

(** [v == s] for a string literal [s] *)
Definition is_str (v : pyval) (s : string) : bool :=
  match v with
  | PyStr s' => String.eqb s' s
  | _ => false
  end.

(** Lines 80-96: the checks on one entry of [modality_configs]. *)
Definition check_config (config : pyval) : error + unit :=
  match config with
  | PyDict entries =>
      match dict_get entries "type" with
      | None => inl ValueError
      | Some ty =>
          if negb (is_str ty "continuous" || is_str ty "discrete")
          then inl ValueError
          else if is_str ty "discrete" then
            match dict_get entries "path" with
            | None => inl ValueError
            | Some (PyPath _) => inr tt
            | Some _ => inl TypeError
            end
          else inr tt
      end
  | _ => inl TypeError
  end.

(** Lines 79-96: [for i, config in enumerate(self.modality_configs)]. *)
Fixpoint check_configs (configs : list pyval) : error + unit :=
  match configs with
  | [] => inr tt
  | config :: rest =>
      match check_config config with
      | inl e => inl e
      | inr _ => check_configs rest
      end
  end.

Definition _validate_configs (modality_configs : pyval) : error + unit :=
  match modality_configs with
  | PyList configs => check_configs configs
  | _ => inl TypeError
  end.

(** What [sample] reads of a configuration: [config["type"]] and, for a
    discrete one, [config["path"]]. *)
Definition to_config (raw : pyval) : option config :=
  match raw with
  | PyDict entries =>
      match dict_get entries "type" with
      | Some ty =>
          if is_str ty "continuous" then Some continuous
          else if is_str ty "discrete" then
            match dict_get entries "path" with
            | Some (PyPath path) => Some (discrete path)
            | _ => None
            end
          else None
      | None => None
      end
  | _ => None
  end.

Definition to_configs (modality_configs : pyval) : list config :=
  match modality_configs with
  | PyList configs =>
      flat_map (fun c => match to_config c with
                         | Some c' => [c']
                         | None => []
                         end) configs
  | _ => []
  end.

(** Lines 60-73. The model argument is [None] when it is not callable. *)
Definition __init__
           (model : option (list tensor -> list tensor -> model_output))
           (modality_configs : pyval)
           (source_distribution_p : option (list nat * list Q))
  : error + MultimodalSolver :=
  match model with
  | None => inl TypeError
  | Some m =>
      match _validate_configs modality_configs with
      | inl e => inl e
      | inr _ =>
          inr {| model := m;
                 modality_configs := to_configs modality_configs;
                 source_distribution_p := source_distribution_p |}
      end
  end.

(** A configuration as the constructor's documentation asks for it: a
    dictionary whose ['type'] is ['continuous'], or is ['discrete'] with a
    [MixtureDiscreteProbPath] under ['path']. *)
Definition well_formed_config (config : pyval) : Prop :=
  exists entries,
    config = PyDict entries
    /\ (dict_get entries "type" = Some (PyStr "continuous")
        \/ (dict_get entries "type" = Some (PyStr "discrete")
            /\ exists path, dict_get entries "path" = Some (PyPath path))).

(** ** Predicates on computations *)

(** Every exception [m] can raise satisfies [ok]. *)
Definition raises_only {P : primitives} {A : Type} (ok : error -> Prop)
           (m : M P A) : Prop :=
  forall w e, fst (m w) = inl e -> ok e.

(** [m] only allocates: it ends in the store it started from, followed by
    new tensors, and leaves the random source alone; a normal result
    satisfies [post]. *)
Definition allocates_only {P : primitives} {A : Type} (m : M P A)
           (post : A -> Prop) : Prop :=
  forall w,
    (exists rest, heap (snd (m w)) = heap w ++ rest)
    /\ gen (snd (m w)) = gen w
    /\ forall a, fst (m w) = inr a -> post a.

(** The exceptions the loop body can raise. *)
Definition loop_error (e : error) : Prop :=
  e = TypeError \/ e = RuntimeError \/ e = AssertionError \/ e = IndexError.

(** The loop's state: [M] fresh states and [K] trajectories of fresh
    snapshots. *)
Definition state_inv (h0 : list tensor) (M K : nat)
           (st : list addr * list (list addr)) : Prop :=
  Forall (fresh h0) (fst st) /\ length (fst st) = M
  /\ Forall (Forall (fresh h0)) (snd st) /\ length (snd st) = K.

(** * Properties *)

Unset Implicit Arguments.

(** ** Comparisons on rationals *)

Lemma Qlt_bool_iff (x y : Q) : Qlt_bool x y = true <-> (x < y)%Q.
Proof.
  unfold Qlt_bool. rewrite negb_true_iff. split.
  - intros H. apply Qnot_le_lt. intros Hle.
    apply Qle_bool_iff in Hle. congruence.
  - intros H. destruct (Qle_bool y x) eqn:E; [|reflexivity].
    apply Qle_bool_iff in E. exfalso. exact (Qlt_not_le _ _ H E).
Qed.

Lemma Qeq_bool_false_iff (x y : Q) : Qeq_bool x y = false <-> ~ (x == y)%Q.
Proof.
  split.
  - intros H E. apply Qeq_bool_iff in E. congruence.
  - intros H. destruct (Qeq_bool x y) eqn:E; [|reflexivity].
    apply Qeq_bool_iff in E. contradiction.
Qed.

(** ** Time discretization *)

(** C6: with [step_size = None] the discretization is the caller's grid and
    the loop runs [len(time_grid) - 1] steps. *)
Theorem discretize_none_is_time_grid (time_grid : list Q) :
  exists d,
    discretize time_grid None = inr d
    /\ t_discretization d = time_grid
    /\ n_steps d = (Z.of_nat (length time_grid) - 1)%Z
    /\ Z.to_nat (n_steps d) = (length time_grid - 1)%nat.
Proof.
  eexists. split; [reflexivity|]. cbn. repeat split. lia.
Qed.

(** C7, as stated, fails for a zero step: the assertion passes and the
    division raises. *)
Lemma discretize_zero_step_raises :
  (0 < last [0; 1] 0 - 0)%Q
  /\ discretize [0; 1]%Q (Some 0%Q) = inl ZeroDivisionError.
Proof.
  split; reflexivity.
Qed.

Lemma discretize_numeric (t_init : Q) (rest : list Q) (step_size : Q) :
  let t_fin := last (t_init :: rest) t_init in
  (step_size < t_fin - t_init)%Q ->
  ~ (step_size == 0)%Q ->
  discretize (t_init :: rest) (Some step_size)
  = inr {| t_discretization :=
             uniform_points t_init step_size
                            (Qceiling ((t_fin - t_init) / step_size))
             ++ [t_fin];
           n_steps := Qceiling ((t_fin - t_init) / step_size);
           t_final := Some t_fin |}.
Proof.
  intros t_fin Hlt Hnz.
  apply Qlt_bool_iff in Hlt. apply Qeq_bool_false_iff in Hnz.
  unfold discretize. cbv zeta iota. fold t_fin.
  rewrite Hlt. cbn [negb]. rewrite Hnz. reflexivity.
Qed.

(** C7 (amended): for a nonzero [step_size] smaller than the interval, the
    discretization is the [n_steps = ceil((t_final - t_init) / step_size)]
    points [t_init + step_size * i], followed by [t_final] itself. *)
Theorem discretize_uniform (t_init : Q) (rest : list Q) (step_size : Q) :
  let time_grid := t_init :: rest in
  let t_fin := last time_grid t_init in
  (step_size < t_fin - t_init)%Q ->
  ~ (step_size == 0)%Q ->
  exists d,
    discretize time_grid (Some step_size) = inr d
    /\ n_steps d = Qceiling ((t_fin - t_init) / step_size)
    /\ t_discretization d
       = map (fun i => (t_init + step_size * inject_Z (Z.of_nat i))%Q)
             (seq 0 (Z.to_nat (n_steps d)))
         ++ [t_fin]
    /\ last (t_discretization d) 0%Q = t_fin
    /\ length (t_discretization d) = S (Z.to_nat (n_steps d)).
Proof.
  intros time_grid t_fin Hlt Hnz.
  eexists. split; [exact (discretize_numeric t_init rest step_size Hlt Hnz)|].
  cbn [n_steps t_discretization]. unfold uniform_points. repeat split.
  - apply last_last.
  - rewrite length_app, length_map, length_seq. cbn. lia.
Qed.

Lemma discretize_uniform_witness :
  exists d,
    discretize [0; 1]%Q (Some (3 # 10)%Q) = inr d
    /\ n_steps d = 4%Z
    /\ last (t_discretization d) 0%Q = 1%Q.
Proof.
  destruct (discretize_uniform 0 [1]%Q (3 # 10))
    as (d & Hd & Hn & _ & Hl & _).
  - reflexivity.
  - intros H. discriminate H.
  - exists d. split; [exact Hd|]. split; [rewrite Hn; reflexivity|exact Hl].
Defined.

(** ** Lists *)

Lemma nth_error_zip_with {A B C : Type} (f : A -> B -> C) :
  forall (l : list A) (m : list B) (i : nat),
    nth_error (zip_with f l m) i
    = match nth_error l i, nth_error m i with
      | Some a, Some b => Some (f a b)
      | _, _ => None
      end.
Proof.
  induction l as [|a l IH]; intros m i.
  - destruct i; reflexivity.
  - destruct m as [|b m].
    + destruct i; cbn; [reflexivity|]. destruct (nth_error l i); reflexivity.
    + destruct i; cbn; [reflexivity|]. apply IH.
Qed.

Lemma length_zip_with {A B C : Type} (f : A -> B -> C) :
  forall (l : list A) (m : list B),
    length (zip_with f l m) = Nat.min (length l) (length m).
Proof.
  induction l as [|a l IH]; intros [|b m]; cbn; auto.
Qed.

Lemma nth_error_one_hot (V x v : nat) :
  (v < V)%nat -> nth_error (one_hot V x) v = Some (x =? v)%nat.
Proof.
  intros Hv. unfold one_hot.
  rewrite nth_error_map, nth_error_seq.
  apply Nat.ltb_lt in Hv. rewrite Hv. reflexivity.
Qed.

Lemma one_hot_all_inr (V : nat) (xs : list nat) (delta : list (list bool)) :
  one_hot_all V xs = inr delta ->
  delta = map (one_hot V) xs /\ Forall (fun x => (x < V)%nat) xs.
Proof.
  unfold one_hot_all. destruct (forallb _ xs) eqn:E; [|discriminate].
  intros [= <-]. split; [reflexivity|].
  rewrite forallb_forall in E. apply Forall_forall. intros x Hx.
  apply Nat.ltb_lt. auto.
Qed.

Lemma list_nat_eqb_refl (s : list nat) : list_nat_eqb s s = true.
Proof.
  unfold list_nat_eqb. destruct (list_eq_dec Nat.eq_dec s s); congruence.
Qed.

Lemma nth_of_nth_error {A : Type} (l : list A) (i : nat) (a d : A) :
  nth_error l i = Some a -> nth i l d = a.
Proof. intros H. now apply nth_error_nth. Qed.

(** ** The rate field of the discrete stepper *)

(** Zeroing one row: the entry at the current value is 0, and the sum of
    the row loses exactly that entry. *)
Lemma zero_self_at (x : nat) (u : list Q) :
  forall (V s : nat), (s <= x)%nat ->
    nth (x - s)
        (zip_with (fun (b : bool) e => if b then 0%Q else e)
                  (map (fun v => (x =? v)%nat) (seq s V)) u) 0%Q = 0%Q.
Proof.
  intros V. revert u. induction V as [|V IH]; intros u s Hs.
  - cbn. destruct (x - s)%nat; reflexivity.
  - destruct u as [|e u]; cbn.
    + destruct (x - s)%nat; reflexivity.
    + destruct (Nat.eq_dec x s) as [->|Hne].
      * rewrite Nat.sub_diag, Nat.eqb_refl. reflexivity.
      * replace (x - s)%nat with (S (x - S s)) by lia.
        cbn. apply IH. lia.
Qed.

Lemma zero_self_sum (x : nat) :
  forall (V s : nat) (u : list Q),
    (s <= x)%nat -> (x < s + V)%nat -> length u = V ->
    (Qsum (zip_with (fun (b : bool) e => if b then 0%Q else e)
                    (map (fun v => (x =? v)%nat) (seq s V)) u)
     == Qsum u - nth (x - s) u 0)%Q.
Proof.
  assert (Hout : forall (V s : nat) (u : list Q),
             (x < s)%nat ->
             zip_with (fun (b : bool) e => if b then 0%Q else e)
                      (map (fun v => (x =? v)%nat) (seq s V)) u
             = firstn V u).
  { induction V as [|V IH]; intros s u Hlt.
    - reflexivity.
    - destruct u as [|e u]; [reflexivity|]. cbn.
      destruct (Nat.eqb_spec x s) as [->|_]; [lia|].
      f_equal. apply IH. lia. }
  induction V as [|V IH]; intros s u Hs Hx Hlen.
  - lia.
  - destruct u as [|e u]; [discriminate|]. cbn in Hlen. cbn.
    destruct (Nat.eq_dec x s) as [->|Hne].
    + rewrite Nat.sub_diag, Nat.eqb_refl. cbn.
      rewrite Hout by lia. rewrite firstn_all2 by lia. ring.
    + destruct (Nat.eqb_spec x s) as [->|_]; [contradiction|].
      replace (x - s)%nat with (S (x - S s)) by lia. cbn.
      rewrite IH by lia. unfold Qsum. ring.
Qed.

(** C5: after zeroing, the rate of every coordinate towards the value it
    holds is exactly 0, and the coordinate's intensity is the sum of its
    rates towards the other values. *)
Theorem self_transition_rate_zero
        (V : nat) (cur : list nat) (delta_t : list (list bool))
        (u : list (list Q)) :
  one_hot_all V cur = inr delta_t ->
  forall (c x : nat), nth_error cur c = Some x ->
    nth x (nth c (zero_self_transitions delta_t u) []) 0%Q = 0%Q
    /\ forall row, nth_error u c = Some row -> length row = V ->
         (nth c (map Qsum (zero_self_transitions delta_t u)) 0
          == Qsum row - nth x row 0)%Q.
Proof.
  intros Hd c x Hc.
  apply one_hot_all_inr in Hd. destruct Hd as [-> Hall].
  assert (Hx : (x < V)%nat).
  { rewrite Forall_forall in Hall. apply Hall.
    eapply nth_error_In; eauto. }
  assert (Hrow : nth_error (zero_self_transitions (map (one_hot V) cur) u) c
                 = match nth_error u c with
                   | Some row => Some (zero_self (one_hot V x) row)
                   | None => None
                   end).
  { unfold zero_self_transitions.
    rewrite nth_error_zip_with, nth_error_map, Hc. reflexivity. }
  split.
  - destruct (nth_error u c) as [row|] eqn:Eu.
    + rewrite (nth_of_nth_error _ _ _ _ Hrow).
      unfold zero_self, one_hot.
      rewrite <- (Nat.sub_0_r x) at 1. apply zero_self_at. lia.
    + apply nth_error_None in Hrow.
      rewrite (nth_overflow _ [] Hrow). destruct x; reflexivity.
  - intros row Eu Hlen. rewrite Eu in Hrow.
    assert (Hs : nth_error (map Qsum
                   (zero_self_transitions (map (one_hot V) cur) u)) c
                 = Some (Qsum (zero_self (one_hot V x) row))).
    { rewrite nth_error_map, Hrow. reflexivity. }
    rewrite (nth_of_nth_error _ _ _ _ Hs).
    unfold zero_self, one_hot.
    rewrite zero_self_sum by lia. rewrite Nat.sub_0_r. reflexivity.
Qed.

Lemma self_transition_rate_zero_witness :
  nth 1 (nth 0 (zero_self_transitions [one_hot 3 1] [[2; 5; 7]%Q]) []) 0%Q
  = 0%Q.
Proof.
  apply (self_transition_rate_zero 3 [1%nat] [one_hot 3 1] [[2; 5; 7]%Q]
           eq_refl 0%nat 1%nat eq_refl).
Defined.

(** C2, as stated, fails for a negative coefficient: the guard is
    [div_free_t > 0], so with [div_free = -0.1] and a source distribution the
    rate field stays [d_k_t / (1 - k_t) * onehot(x_1)]. *)
Lemma negative_div_free_adds_nothing :
  let source := Some ([2%nat], [1 # 2; 1 # 2]%Q) in
  let div_free_t := div_free_at (DivConst (- (1 # 10))) (time_tensor 1 0) in
  let k_t := (1 # 2)%Q in
  let d_k_t := 1%Q in
  ~ (div_free_t == 0)%Q
  /\ rate_field source div_free_t k_t d_k_t [one_hot 2 0]
     = inr [rate_row k_t d_k_t (one_hot 2 0)]
  /\ ~ (nth 0 (rate_row k_t d_k_t (one_hot 2 0)) 0
        == d_k_t / (1 - k_t) * 1
           + div_free_t * d_k_t / (k_t * (1 - k_t))
             * ((1 - k_t) * (1 # 2) + k_t * 1))%Q.
Proof.
  cbv zeta. split; [|split].
  - intros H. discriminate H.
  - reflexivity.
  - intros H. discriminate H.
Qed.

(** C2 (amended): on a non-final step, when the coefficient evaluates to a
    positive value and the source distribution is set, every entry of the
    rate field before zeroing is
    [d_k_t/(1-k_t) * onehot(x_1) + c * d_k_t/(k_t*(1-k_t)) * ((1-k_t)*p_0 + k_t*onehot(x_1))]. *)
Theorem div_free_term_added
        (div_free : div_free_arg) (t_idx : tensor)
        (V : nat) (x_1 : list nat) (delta_1 : list (list bool))
        (s : list nat) (p_0 : list Q) (k_t d_k_t : Q) :
  let c := div_free_at div_free t_idx in
  one_hot_all V x_1 = inr delta_1 ->
  length p_0 = V ->
  (0 < c)%Q ->
  exists u,
    rate_field (Some (s, p_0)) c k_t d_k_t delta_1 = inr u
    /\ length u = length x_1
    /\ forall (i x v : nat),
        nth_error x_1 i = Some x -> (v < V)%nat ->
        nth v (nth i u []) 0%Q
        = (d_k_t / (1 - k_t) * to_float (x =? v)%nat
           + c * d_k_t / (k_t * (1 - k_t))
             * ((1 - k_t) * nth v p_0 0 + k_t * to_float (x =? v)%nat))%Q.
Proof.
  intros c Hd Hp Hc.
  apply one_hot_all_inr in Hd. destruct Hd as [-> _].
  unfold rate_field. apply Qlt_bool_iff in Hc. rewrite Hc.
  eexists. split; [reflexivity|]. split.
  - rewrite length_zip_with, !length_map. apply Nat.min_id.
  - intros i x v Hi Hv.
    assert (Hrow : nth_error
              (zip_with add_rows
                 (map (rate_row k_t d_k_t) (map (one_hot V) x_1))
                 (map (div_free_row c k_t d_k_t p_0) (map (one_hot V) x_1))) i
            = Some (add_rows (rate_row k_t d_k_t (one_hot V x))
                             (div_free_row c k_t d_k_t p_0 (one_hot V x)))).
    { rewrite nth_error_zip_with, !nth_error_map, Hi. reflexivity. }
    rewrite (nth_of_nth_error _ _ _ _ Hrow).
    apply nth_of_nth_error.
    unfold add_rows, rate_row, div_free_row.
    rewrite !nth_error_zip_with, nth_error_map, nth_error_one_hot by exact Hv.
    cbn [option_map].
    assert (Hpv : nth_error p_0 v = Some (nth v p_0 0%Q)).
    { apply nth_error_nth'. lia. }
    rewrite Hpv. reflexivity.
Qed.

Lemma div_free_term_added_witness :
  exists u,
    rate_field (Some ([2%nat], [1 # 2; 1 # 2]%Q)) (1 # 10) (1 # 2) 1
               [one_hot 2 0]
    = inr u
    /\ length u = 1%nat.
Proof.
  destruct (div_free_term_added (DivConst (1 # 10)) (time_tensor 1 0)
              2 [0%nat] [one_hot 2 0] [2%nat] [1 # 2; 1 # 2]%Q (1 # 2) 1
              eq_refl eq_refl eq_refl) as (u & Hu & Hlen & _).
  exists u. split; [exact Hu|exact Hlen].
Defined.

(** ** The final step of a discrete modality *)


(** ** A non-final step of a discrete modality, spelled out

    The rate field that decides the jumps is [rate_field], zeroed by
    [zero_self_transitions] against the current state; the state is written
    in place, and only where the mask is set. *)
Lemma discrete_update_non_final
      (P : primitives) (self : MultimodalSolver) (div_free : div_free_arg)
      (path : MixtureDiscreteProbPath) (i : nat) (n : Z)
      (t_i : Q) (t_idx : tensor) (h : Q) (x : addr)
      (shape : list nat) (data : list Q) (w : world P)
      (s : list nat) (cur : list nat)
      (delta_1 delta_t : list (list bool)) (u : list (list Q)) :
  let V := last shape 0%nat in
  let x_1 := fst (categorical P (map (softmax P) (rows shape data)) (gen w)) in
  let g1 := snd (categorical P (map (softmax P) (rows shape data)) (gen w)) in
  shape <> [] ->
  Z.of_nat i <> (n - 1)%Z ->
  match source_distribution_p self with
  | Some (s_p, _) => s_p = [V]
  | None => True
  end ->
  one_hot_all V x_1 = inr delta_1 ->
  rate_field (source_distribution_p self) (div_free_at div_free t_idx)
             (alpha_t (scheduler path t_i)) (d_alpha_t (scheduler path t_i))
             delta_1
  = inr u ->
  nth_error (heap w) x = Some (Long s cur) ->
  s = removelast shape ->
  one_hot_all V cur = inr delta_t ->
  let u0 := zero_self_transitions delta_t u in
  let draws := fst (rand P (prod_shape s) g1) in
  let g2 := snd (rand P (prod_shape s) g1) in
  let mask_jump := jump_mask P h draws (map Qsum u0) in
  let new := fst (categorical P (select mask_jump u0) g2) in
  let g3 := snd (categorical P (select mask_jump u0) g2) in
  discrete_update self div_free path i n t_i t_idx h x (Float shape data) w
  = if existsb (fun b : bool => b) mask_jump
    then (inr x,
          {| heap := list_set (heap w) x (Long s (scatter mask_jump new cur));
             gen := g3 |})
    else (inr x, {| heap := heap w; gen := g2 |}).
Proof.
  intros V x_1 g1 Hshape Hi Hsrc Hd1 Hu Hx Hs Hdt u0 draws g2 mask_jump new g3.
  unfold discrete_update.
  destruct shape as [|s0 shape']; [contradiction|].
  set (shape := s0 :: shape') in *.
  unfold bind at 1. unfold draw_categorical at 1.
  fold V. subst x_1 g1 draws g2 new g3 mask_jump u0.
  destruct (categorical P (map (softmax P) (rows shape data)) (gen w))
    as [x_1 g1] eqn:Ecat.
  cbn [fst snd] in *.
  apply Z.eqb_neq in Hi. rewrite Hi.
  unfold bind at 1.
  assert (Hchk : check_source_shape (P := P) (source_distribution_p self) V
                 = ret tt).
  { unfold check_source_shape.
    destruct (source_distribution_p self) as [[s_p p]|]; [|reflexivity].
    rewrite Hsrc, list_nat_eqb_refl. reflexivity. }
  rewrite Hchk. cbn [ret heap gen].
  unfold bind at 1. rewrite Hd1. cbn [lift ret].
  unfold bind at 1. rewrite Hu. cbn [lift ret].
  unfold bind at 1. unfold load at 1. cbn [heap]. rewrite Hx.
  rewrite Hs, list_nat_eqb_refl. cbn [negb].
  unfold bind at 1. rewrite Hdt. cbn [lift ret].
  unfold bind at 1. unfold draw_rand at 1. cbn [gen heap].
  destruct (rand P (prod_shape (removelast shape)) g1) as [draws g2].
  cbn [fst snd].
  destruct (existsb (fun b : bool => b)
                    (jump_mask P h draws
                               (map Qsum (zero_self_transitions delta_t u))));
    [|reflexivity].
  unfold bind at 1. unfold draw_categorical at 1. cbn [gen heap].
  destruct (categorical P _ g2) as [new g3]. cbn [fst snd].
  reflexivity.
Qed.

(** ** Contract violations of the model *)

Lemma load_world (P : primitives) (a : addr) (w : world P) :
  snd (load a w) = w.
Proof. unfold load. destruct (nth_error (heap w) a); reflexivity. Qed.

Lemma mapM_load_world (P : primitives) (l : list addr) (w : world P) :
  snd (mapM (@load P) l w) = w.
Proof.
  induction l as [|a l IH]; [reflexivity|].
  cbn [mapM]. unfold bind.
  pose proof (load_world P a w) as Ha.
  destruct (load a w) as [[e|v] w1]; cbn in Ha; subst w1; [reflexivity|].
  destruct (mapM (@load P) l w) as [[e|vs] w2]; cbn in IH; subst w2;
    reflexivity.
Qed.

(** C9: when the model returns something that is not a sequence, or a
    sequence of the wrong length, the step raises [TypeError] with the store
    and the random source as they were when the step began, and the loop
    stops there. *)
Theorem bad_model_output_raises
        (P : primitives) (self : MultimodalSolver) (div_free : div_free_arg)
        (return_intermediates enable_grad : bool) (d : discretization)
        (time_grid : list Q) (batch_size i : nat)
        (states : list addr) (intermediates : list (list addr))
        (xs : list tensor) (w : world P) :
  let t := repeat (time_tensor batch_size (nth i (t_discretization d) 0%Q))
                  (length states) in
  fst (mapM (@load P) states w) = inr xs ->
  (model self xs t = NonSeq
   \/ exists outputs,
       model self xs t = Seq outputs /\ length outputs <> length states) ->
  step self div_free return_intermediates enable_grad d time_grid batch_size
       i (states, intermediates) w
  = (inl TypeError, w)
  /\ forall count,
      steps self div_free return_intermediates enable_grad d time_grid
            batch_size (S count) i (states, intermediates) w
      = (inl TypeError, w).
Proof.
  intros t Hload Hbad.
  assert (Hstep : step self div_free return_intermediates enable_grad d
                       time_grid batch_size i (states, intermediates) w
                  = (inl TypeError, w)).
  { unfold step. cbv zeta. fold t. unfold bind at 1.
    pose proof (mapM_load_world P states w) as Hw.
    destruct (mapM (@load P) states w) as [r w1]. cbn in Hload, Hw.
    subst r w1.
    destruct Hbad as [-> | (outputs & -> & Hlen)]; [reflexivity|].
    apply Nat.eqb_neq in Hlen. rewrite Hlen. reflexivity. }
  split; [exact Hstep|].
  intros count. cbn [steps]. unfold bind. rewrite Hstep. reflexivity.
Qed.

(** ** Frame reasoning: what the caller's tensors look like afterwards *)

Section Frame.

Variable P : primitives.
Variable h0 : list tensor.

Local Abbreviation extends := (@extends P h0).
Local Abbreviation fresh := (fresh h0).
Local Abbreviation framed := (@framed P _ h0).

Lemma framed_ret {A : Type} (a : A) (post : A -> Prop) :
  post a -> framed (ret a) post.
Proof.
  intros Ha w Hw. split; [exact Hw|]. intros a' [= <-]. exact Ha.
Qed.

Lemma framed_raise {A : Type} (e : error) (post : A -> Prop) :
  framed (raise e) post.
Proof.
  intros w Hw. split; [exact Hw|]. intros a' [=].
Qed.

Lemma framed_bind {A B : Type} (m : M P A) (k : A -> M P B)
      (mid : A -> Prop) (post : B -> Prop) :
  framed m mid ->
  (forall a, mid a -> framed (k a) post) ->
  framed (bind m k) post.
Proof.
  intros Hm Hk w Hw. unfold bind.
  destruct (Hm w Hw) as [Hext Hres].
  destruct (m w) as [[e|a] w1]; cbn in Hext, Hres.
  - split; [exact Hext|]. intros a' [=].
  - apply Hk; [apply Hres; reflexivity|exact Hext].
Qed.

Lemma framed_weaken {A : Type} (m : M P A) (post post' : A -> Prop) :
  framed m post -> (forall a, post a -> post' a) -> framed m post'.
Proof.
  intros Hm Himp w Hw. destruct (Hm w Hw) as [Hext Hres].
  split; [exact Hext|]. intros a Ha. apply Himp, Hres, Ha.
Qed.

Lemma framed_lift {A : Type} (r : error + A) :
  framed (lift r) (fun _ => True).
Proof.
  destruct r; [apply framed_raise|now apply framed_ret].
Qed.

Lemma framed_item {A : Type} (l : list A) (i : nat) :
  framed (item l i) (fun a => nth_error l i = Some a).
Proof.
  unfold item. destruct (nth_error l i);
    [now apply framed_ret|apply framed_raise].
Qed.

Lemma framed_load (a : addr) : framed (load a) (fun _ => True).
Proof.
  intros w Hw. unfold load.
  destruct (nth_error (heap w) a); (split; [exact Hw|auto]).
Qed.

Lemma framed_alloc (v : tensor) : framed (alloc v) fresh.
Proof.
  intros w [rest Hw]. unfold alloc. cbn. split.
  - exists (rest ++ [v]). rewrite Hw, app_assoc. reflexivity.
  - intros a [= <-]. unfold fresh. rewrite Hw, length_app. lia.
Qed.

Lemma list_set_app_r {A : Type} (l1 : list A) :
  forall (l2 : list A) (a : nat) (x : A),
    (length l1 <= a)%nat ->
    list_set (l1 ++ l2) a x = l1 ++ list_set l2 (a - length l1) x.
Proof.
  induction l1 as [|y l1 IH]; intros l2 a x Ha.
  - cbn. now rewrite Nat.sub_0_r.
  - cbn in Ha. destruct a as [|a]; [lia|]. cbn.
    destruct (l1 ++ l2) eqn:E; rewrite <- E, IH by lia; reflexivity.
Qed.

Lemma framed_store (a : addr) (v : tensor) :
  fresh a -> framed (store a v) (fun _ => True).
Proof.
  intros Ha w [rest Hw]. unfold store. cbn. split; [|auto].
  exists (list_set rest (a - length h0) v).
  rewrite Hw. apply list_set_app_r. exact Ha.
Qed.

Lemma framed_draw_categorical (probs : list (list Q)) :
  framed (draw_categorical probs) (fun _ => True).
Proof.
  intros w Hw. unfold draw_categorical.
  destruct (categorical P probs (gen w)). cbn. split; [exact Hw|auto].
Qed.

Lemma framed_draw_rand (n : nat) : framed (draw_rand n) (fun _ => True).
Proof.
  intros w Hw. unfold draw_rand.
  destruct (rand P n (gen w)). cbn. split; [exact Hw|auto].
Qed.

Lemma framed_clone (a : addr) : framed (clone a) fresh.
Proof.
  unfold clone. eapply framed_bind; [apply framed_load|].
  intros v _. apply framed_alloc.
Qed.

Lemma framed_mapM {A B : Type} (f : A -> M P B) (post : B -> Prop)
      (l : list A) :
  (forall a, framed (f a) post) ->
  framed (mapM f l) (Forall post).
Proof.
  intros Hf. induction l as [|a l IH]; cbn [mapM].
  - now apply framed_ret.
  - eapply framed_bind; [apply Hf|]. intros b Hb.
    eapply framed_bind; [apply IH|]. intros bs Hbs.
    apply framed_ret. now constructor.
Qed.

Lemma Forall_list_set {A : Type} (Q : A -> Prop) (x : A) :
  forall (l : list A) (i : nat),
    Forall Q l -> Q x -> Forall Q (list_set l i x).
Proof.
  induction l as [|a l IH]; intros i Hl Hx; [constructor|].
  inversion Hl; subst. destruct i; cbn; constructor; auto.
Qed.

Lemma Forall_nth_error {A : Type} (Q : A -> Prop) (l : list A) (i : nat)
      (a : A) :
  Forall Q l -> nth_error l i = Some a -> Q a.
Proof.
  intros Hl Hi. rewrite Forall_forall in Hl. apply Hl.
  eapply nth_error_In; eauto.
Qed.

Ltac frame_bind x :=
  eapply framed_bind;
  [ first [ apply framed_load | apply framed_lift | apply framed_item
          | apply framed_draw_categorical | apply framed_draw_rand
          | apply framed_alloc | apply framed_clone ]
  | intros x ? ].

Lemma framed_check_source_shape (source : option (list nat * list Q))
      (V : nat) :
  framed (check_source_shape (P := P) source V) (fun _ => True).
Proof.
  unfold check_source_shape. destruct source as [[s p]|].
  - destruct (list_nat_eqb s [V]); [now apply framed_ret|apply framed_raise].
  - now apply framed_ret.
Qed.

Lemma framed_discrete_update (self : MultimodalSolver)
      (div_free : div_free_arg) (path : MixtureDiscreteProbPath)
      (i : nat) (n : Z) (t_i : Q) (t_idx : tensor) (h : Q) (x : addr)
      (model_out : tensor) :
  fresh x ->
  framed (discrete_update self div_free path i n t_i t_idx h x model_out)
         fresh.
Proof.
  intros Hx. unfold discrete_update.
  destruct model_out as [shape data|shape data]; [|apply framed_raise].
  destruct shape as [|s0 shape]; [apply framed_raise|].
  frame_bind x_1.
  destruct (Z.of_nat i =? n - 1)%Z; [apply framed_alloc|].
  eapply framed_bind; [apply framed_check_source_shape|]. intros _ _.
  frame_bind delta_1. frame_bind u. frame_bind x_t.
  destruct x_t as [s cur|s cur]; [apply framed_raise|].
  destruct (negb _); [apply framed_raise|].
  frame_bind delta_t. frame_bind draws.
  destruct (existsb _ _); [|now apply framed_ret].
  frame_bind new.
  eapply framed_bind; [apply framed_store; exact Hx|]. intros _ _.
  now apply framed_ret.
Qed.

Lemma framed_continuous_update (h : Q) (x : addr) (model_out : tensor) :
  framed (continuous_update (P := P) h x model_out) fresh.
Proof.
  unfold continuous_update. frame_bind x_t. frame_bind x_next.
  apply framed_alloc.
Qed.

Lemma framed_update_modalities (self : MultimodalSolver)
      (div_free : div_free_arg) (i : nat) (n : Z) (t_i h : Q)
      (outputs : list tensor) :
  forall (configs : list config) (idx : nat) (states : list addr)
         (t : list tensor),
    Forall fresh states ->
    framed (update_modalities (P := P) self div_free i n t_i h outputs
                              configs idx states t)
           (fun st => Forall fresh (fst st)).
Proof.
  induction configs as [|config rest IH]; intros idx states t Hst;
    cbn [update_modalities].
  - now apply framed_ret.
  - frame_bind model_out. eapply framed_bind; [apply framed_item|].
    intros x Hx. frame_bind t_idx.
    eapply framed_bind with (mid := fresh).
    + destruct config as [|path].
      * apply framed_continuous_update.
      * apply framed_discrete_update.
        exact (Forall_nth_error fresh states idx x Hst Hx).
    + intros x' Hx'. apply IH. now apply Forall_list_set.
Qed.

Lemma framed_keep_or_clone (enable_grad : bool) (a : addr) :
  framed (keep_or_clone (P := P) enable_grad a) (fun _ => True).
Proof.
  destruct enable_grad; [now apply framed_ret|].
  eapply framed_weaken; [apply framed_clone|auto].
Qed.

Lemma framed_record_intermediates (enable_grad : bool) (time_grid : list Q)
      (t : list tensor) :
  forall (states : list addr) (idx : nat) (intermediates : list (list addr)),
    framed (record_intermediates (P := P) enable_grad time_grid states idx t
                                 intermediates)
           (fun _ => True).
Proof.
  induction states as [|s rest IH]; intros idx intermediates;
    cbn [record_intermediates].
  - now apply framed_ret.
  - frame_bind t_idx. frame_bind hit.
    eapply framed_bind with (mid := fun _ => True); [|intros; apply IH].
    destruct hit.
    + frame_bind traj.
      eapply framed_bind; [apply framed_keep_or_clone|]. intros ? _.
      now apply framed_ret.
    + now apply framed_ret.
Qed.

Lemma framed_step (self : MultimodalSolver) (div_free : div_free_arg)
      (return_intermediates enable_grad : bool) (d : discretization)
      (time_grid : list Q) (batch_size i : nat)
      (st : list addr * list (list addr)) :
  Forall fresh (fst st) ->
  framed (step (P := P) self div_free return_intermediates enable_grad d
               time_grid batch_size i st)
         (fun st' => Forall fresh (fst st')).
Proof.
  destruct st as [states intermediates]. cbn [fst]. intros Hst.
  unfold step. cbv zeta.
  eapply framed_bind with (mid := fun _ => True).
  { eapply framed_weaken; [apply framed_mapM, framed_load|auto]. }
  intros xs _.
  destruct (model self xs _) as [outputs|]; [|apply framed_raise].
  destruct (negb _); [apply framed_raise|].
  eapply framed_bind; [apply framed_update_modalities; exact Hst|].
  intros [states' t'] Hst'. cbn [fst] in Hst'.
  eapply framed_bind with (mid := fun _ => True).
  - destruct return_intermediates;
      [apply framed_record_intermediates|now apply framed_ret].
  - intros intermediates' _. now apply framed_ret.
Qed.

Lemma framed_steps (self : MultimodalSolver) (div_free : div_free_arg)
      (return_intermediates enable_grad : bool) (d : discretization)
      (time_grid : list Q) (batch_size : nat) :
  forall (count i : nat) (st : list addr * list (list addr)),
    Forall fresh (fst st) ->
    framed (steps (P := P) self div_free return_intermediates enable_grad d
                  time_grid batch_size count i st)
           (fun st' => Forall fresh (fst st')).
Proof.
  induction count as [|count IH]; intros i st Hst; cbn [steps].
  - now apply framed_ret.
  - eapply framed_bind; [apply framed_step; exact Hst|].
    intros st' Hst'. apply IH. exact Hst'.
Qed.

Lemma framed_open_progress (tqdm_available verbose : bool)
      (d : discretization) :
  framed (open_progress (P := P) tqdm_available verbose d) (fun _ => True).
Proof.
  unfold open_progress. destruct verbose; [|now apply framed_ret].
  destruct (negb tqdm_available); [apply framed_raise|].
  destruct (t_final d); [now apply framed_ret|apply framed_raise].
Qed.

Lemma framed_sample (tqdm_available : bool) (self : MultimodalSolver)
      (x_init : list addr) (step_size : option Q) (div_free : div_free_arg)
      (method : string) (time_grid : list Q)
      (return_intermediates verbose : bool) :
  framed (sample (P := P) tqdm_available self x_init step_size div_free
                 method time_grid return_intermediates false verbose)
         (fun _ => True).
Proof.
  unfold sample.
  destruct (negb (length x_init =? _)%nat); [apply framed_raise|].
  destruct (negb (String.eqb method _)); [apply framed_raise|].
  destruct (div_free_nonzero div_free && _); [apply framed_raise|].
  frame_bind x0. frame_bind v0. frame_bind batch_size. frame_bind d.
  destruct (recording_plan _ _ _ _) as [order time_grid'].
  eapply framed_bind; [apply framed_mapM; intros; apply framed_clone|].
  intros states Hstates.
  eapply framed_bind with (mid := fun _ => True).
  { destruct return_intermediates; [|now apply framed_ret].
    eapply framed_weaken; [|auto].
    apply framed_mapM with (post := fun _ => True). intros x.
    frame_bind a. now apply framed_ret. }
  intros intermediates _.
  eapply framed_bind; [apply framed_open_progress|]. intros _ _.
  eapply framed_bind; [apply framed_steps; exact Hstates|].
  intros [states' intermediates'] _.
  destruct return_intermediates; [|now apply framed_ret].
  destruct step_size; [|now apply framed_ret].
  eapply framed_bind with (mid := fun _ => True);
    [|intros; now apply framed_ret].
  eapply framed_weaken; [|auto].
  apply framed_mapM with (post := fun _ => True). intros traj.
  eapply framed_weaken; [|auto].
  apply framed_mapM with (post := fun _ => True). intros k.
  eapply framed_weaken; [apply framed_item|auto].
Qed.

End Frame.

(** C10: with [enable_grad = False], every tensor of [x_init] holds after
    the call, whether it returned or raised, what it held before: the working
    states are clones, and both the rebinding of continuous modalities and
    the in-place writes of discrete ones touch only tensors allocated during
    the call. *)
Theorem sample_leaves_x_init_unchanged
        (P : primitives) (tqdm_available : bool) (self : MultimodalSolver)
        (x_init : list addr) (step_size : option Q) (div_free : div_free_arg)
        (method : string) (time_grid : list Q)
        (return_intermediates verbose : bool) (w : world P) :
  let w' := snd (sample tqdm_available self x_init step_size div_free method
                        time_grid return_intermediates false verbose w) in
  forall (a : addr) (v : tensor),
    In a x_init ->
    nth_error (heap w) a = Some v ->
    nth_error (heap w') a = Some v.
Proof.
  intros w' a v _ Ha. subst w'.
  destruct (framed_sample P (heap w) tqdm_available self x_init step_size
              div_free method time_grid return_intermediates verbose w)
    as [[rest Hext] _].
  { exists []. now rewrite app_nil_r. }
  rewrite Hext. rewrite nth_error_app1; [exact Ha|].
  apply nth_error_Some. congruence.
Qed.

Lemma sample_leaves_x_init_unchanged_witness :
  nth_error
    (heap (snd (sample true two_class_solver [0%nat] None (DivConst 0)
                       "euler" [0; 1 # 2; 1]%Q false false false
                       (fixed_world [Long [1%nat] [0%nat]]))))
    0
  = Some (Long [1%nat] [0%nat]).
Proof.
  apply (sample_leaves_x_init_unchanged fixed_primitives true two_class_solver
           [0%nat] None (DivConst 0) "euler" [0; 1 # 2; 1]%Q false false
           (fixed_world [Long [1%nat] [0%nat]]) 0%nat (Long [1%nat] [0%nat])).
  - left. reflexivity.
  - reflexivity.
Defined.

(** With [enable_grad = True] the working state is the caller's tensor
    itself, and the in-place write of a discrete jump shows in it. *)
Example enable_grad_writes_through :
  nth_error
    (heap (snd (sample true two_class_solver [0%nat] None (DivConst 0)
                       "euler" [0; 1 # 2; 1]%Q false true false
                       (fixed_world [Long [1%nat] [0%nat]]))))
    0
  = Some (Long [1%nat] [1%nat]).
Proof. vm_compute. reflexivity. Qed.

(** ** Concrete runs *)


Lemma bad_model_output_raises_witness :
  let w := fixed_world [Float [1%nat] [1 # 2]] in
  let d := {| t_discretization := [0; 1 # 2; 1]%Q;
              n_steps := 2;
              t_final := None |} in
  step failing_solver (DivConst 0) false false d [0; 1 # 2; 1]%Q 1 1
       ([0%nat], []) w
  = (inl TypeError, w).
Proof.
  cbv zeta.
  apply (bad_model_output_raises fixed_primitives failing_solver (DivConst 0)
           false false
           {| t_discretization := [0; 1 # 2; 1]%Q;
              n_steps := 2;
              t_final := None |}
           [0; 1 # 2; 1]%Q 1 1 [0%nat] [] [Float [1%nat] [1 # 2]]
           (fixed_world [Float [1%nat] [1 # 2]])).
  - reflexivity.
  - left. reflexivity.
Defined.

(** The same violation seen from [sample]: the first step is applied, the
    second raises, and the store holds the caller's tensor, its clone and
    the state after the first step, nothing more. *)
Example contract_violation_in_sample :
  sample true failing_solver [0%nat] None (DivConst 0) "euler"
         [0; 1 # 2; 1]%Q false false false (fixed_world [Float [1%nat] [0]])
  = (inl TypeError,
     @Build_world fixed_primitives
                  [Float [1%nat] [0]; Float [1%nat] [0];
                   Float [1%nat] [0 + ((1 # 2) - 0) * 1]]%Q 0%nat).
Proof. vm_compute. reflexivity. Qed.

(** With [step_size = None] and [verbose = True] no call returns: whatever
    passes the argument checks stops at the progress display. *)
Lemma verbose_without_step_size_never_returns
      (P : primitives) (tqdm_available : bool) (self : MultimodalSolver)
      (x_init : list addr) (div_free : div_free_arg) (method : string)
      (time_grid : list Q) (return_intermediates enable_grad : bool)
      (w : world P) :
  exists e,
    fst (sample tqdm_available self x_init None div_free method time_grid
                return_intermediates enable_grad true w)
    = inl e.
Proof.
  unfold sample.
  destruct (negb (length x_init =? _)%nat); [eexists; reflexivity|].
  destruct (negb (String.eqb method _)); [eexists; reflexivity|].
  destruct (div_free_nonzero div_free && _); [eexists; reflexivity|].
  unfold bind at 1.
  destruct (item x_init 0 w) as [[e|x0] w1]; [eexists; reflexivity|].
  unfold bind at 1.
  destruct (load x0 w1) as [[e|v0] w2]; [eexists; reflexivity|].
  unfold bind at 1.
  destruct (item (shape_of v0) 0 w2) as [[e|b] w3]; [eexists; reflexivity|].
  unfold bind at 1. cbn [discretize lift ret recording_plan].
  unfold bind at 1.
  destruct (mapM (keep_or_clone enable_grad) x_init w3) as [[e|states] w4];
    [eexists; reflexivity|].
  unfold bind at 1.
  destruct ((if return_intermediates
             then mapM (fun x => bind (keep_or_clone enable_grad x)
                                      (fun a => ret [a])) x_init
             else ret []) w4) as [[e|intermediates] w5];
    [eexists; reflexivity|].
  unfold bind at 1. unfold open_progress. cbn [t_final].
  destruct (negb tqdm_available); eexists; reflexivity.
Qed.

(** C3 fails on the code: with [step_size = None] the local [t_final] is
    never bound, so building the progress display raises
    [UnboundLocalError], although the same call with [verbose = False]
    returns. *)
Theorem verbose_without_step_size_raises :
  observe (sample true unit_velocity_solver [0%nat] None (DivConst 0) "euler"
                  [0; 1]%Q false false false
                  (fixed_world [Float [1%nat] [0]]))
  = inr [[Some (Float [1%nat] [1])]]
  /\ fst (sample true unit_velocity_solver [0%nat] None (DivConst 0) "euler"
                 [0; 1]%Q false false true
                 (fixed_world [Float [1%nat] [0]]))
     = inl UnboundLocalError.
Proof. split; vm_compute; reflexivity. Qed.

(** C1 fails on the code: the recorded snapshots are in ascending time
    order and are indexed by [argsort(time_grid)], which restores the
    caller's order only when that permutation is its own inverse. From the
    state 0 with velocity 1 the snapshot at time [t] is [t]; for the grid
    [0, 1/2, 3/4, 1/4, 1] the caller's order is the grid itself, and the
    returned trajectory is [0, 3/4, 1/4, 1/2, 1]. *)
Theorem trajectory_order_not_restored :
  observe (sample true unit_velocity_solver [0%nat] (Some (1 # 4))
                  (DivConst 0) "euler" [0; 1 # 2; 3 # 4; 1 # 4; 1]%Q
                  true false false (fixed_world [Float [1%nat] [0]]))
  = inr [[Some (Float [1%nat] [0]); Some (Float [1%nat] [3 # 4]);
          Some (Float [1%nat] [1 # 4]); Some (Float [1%nat] [1 # 2]);
          Some (Float [1%nat] [1])]]%Q
  /\ argsort [0; 1 # 2; 3 # 4; 1 # 4; 1]%Q = [0; 3; 1; 2; 4]%nat.
Proof. split; vm_compute; reflexivity. Qed.

(** When the sorting permutation is a transposition the caller's order
    does come back. *)
Example trajectory_order_restored_for_a_swap :
  observe (sample true unit_velocity_solver [0%nat] (Some (1 # 4))
                  (DivConst 0) "euler" [0; 1 # 2; 1 # 4; 1]%Q
                  true false false (fixed_world [Float [1%nat] [0]]))
  = inr [[Some (Float [1%nat] [0]); Some (Float [1%nat] [1 # 2]);
          Some (Float [1%nat] [1 # 4]); Some (Float [1%nat] [1])]]%Q.
Proof. vm_compute. reflexivity. Qed.

(** A grid whose first entry is its largest does not pass the step-size
    assertion at all. *)
Example unsorted_grid_fails_assertion :
  fst (sample true unit_velocity_solver [0%nat] (Some (1 # 10))
              (DivConst 0) "euler" [1; 0; 3 # 10]%Q
              true false false (fixed_world [Float [1%nat] [0]]))
  = inl AssertionError.
Proof. vm_compute. reflexivity. Qed.

(** ** Euler steps of a continuous modality *)





Section ConstantVelocity.

Variable P : primitives.
Variable self : MultimodalSolver.
Variable shape : list nat.
Variables xs vs : list Q.

Hypothesis single_continuous : modality_configs self = [continuous].
Hypothesis constant_velocity :
  forall states t, model self states t = Seq [Float shape vs].




End ConstantVelocity.






(** The scenario of the specification: [x0 = [0.0]], velocity [2.0],
    [step_size = 0.5] on the grid [0, 1] gives [2.0]. *)
Example two_half_steps :
  observe (sample true double_velocity_solver [0%nat] (Some (1 # 2))
                  (DivConst 0) "euler" [0; 1]%Q false false false
                  (fixed_world [Float [1%nat] [0]]))
  = inr [[Some (Float [1%nat] [2])]].
Proof. vm_compute. reflexivity. Qed.

(** * Further properties of the code *)

(** ** Construction *)

Lemma is_str_true (v : pyval) (s : string) :
  is_str v s = true <-> v = PyStr s.
Proof.
  destruct v; cbn; try (split; [discriminate|intros [=]]).
  rewrite String.eqb_eq. split; [now intros ->|now intros [= ->]].
Qed.

Lemma check_config_ok (config : pyval) :
  check_config config = inr tt <-> well_formed_config config.
Proof.
  split.
  - destruct config as [| |entries| |]; cbn; try discriminate.
    destruct (dict_get entries "type") as [ty|] eqn:Ety; [|discriminate].
    destruct (is_str ty "continuous") eqn:Ec; cbn.
    + apply is_str_true in Ec. subst ty.
      intros _. exists entries. split; [reflexivity|]. now left.
    + destruct (is_str ty "discrete") eqn:Ed; cbn; [|discriminate].
      apply is_str_true in Ed. subst ty.
      destruct (dict_get entries "path") as [[| | |path|]|] eqn:Ep;
        try discriminate.
      intros _. exists entries. split; [reflexivity|]. right.
      split; [exact Ety|]. now exists path.
  - intros (entries & -> & [Hc | (Hd & path & Hp)]); cbn.
    + rewrite Hc. reflexivity.
    + rewrite Hd, Hp. reflexivity.
Qed.

Lemma check_configs_ok (configs : list pyval) :
  check_configs configs = inr tt <-> Forall well_formed_config configs.
Proof.
  induction configs as [|c configs IH]; cbn.
  - split; [constructor|reflexivity].
  - destruct (check_config c) as [e|[]] eqn:Ec.
    + split; [discriminate|]. intros H. inversion H; subst.
      apply check_config_ok in H2. congruence.
    + rewrite IH. split.
      * intros H. constructor; [now apply check_config_ok|exact H].
      * intros H. now inversion H.
Qed.

(** Validation accepts exactly the lists of well-formed configurations;
    keys other than ['type'] and ['path'] play no part. *)
Theorem validate_configs_accepts (modality_configs : pyval) :
  _validate_configs modality_configs = inr tt
  <-> exists configs,
        modality_configs = PyList configs
        /\ Forall well_formed_config configs.
Proof.
  split.
  - destruct modality_configs as [|configs| | |]; cbn; try discriminate.
    intros H. exists configs. split; [reflexivity|].
    now apply check_configs_ok.
  - intros (configs & -> & H). cbn. now apply check_configs_ok.
Qed.

(** Validation fails fast: behind well-formed entries, the first entry
    that is not well formed decides the exception, a [TypeError] or a
    [ValueError], whatever follows it. *)
Theorem validate_configs_first_offender
        (good : list pyval) (bad : pyval) (rest : list pyval) :
  Forall well_formed_config good ->
  ~ well_formed_config bad ->
  exists e,
    _validate_configs (PyList (good ++ bad :: rest)) = inl e
    /\ check_config bad = inl e
    /\ (e = TypeError \/ e = ValueError).
Proof.
  intros Hgood Hbad.
  assert (Hb : exists e, check_config bad = inl e
                         /\ (e = TypeError \/ e = ValueError)).
  { destruct (check_config bad) as [e|[]] eqn:Eb.
    - exists e. split; [reflexivity|].
      destruct bad as [| |entries| |]; cbn in Eb;
        try (injection Eb as <-; now left).
      destruct (dict_get entries "type") as [ty|];
        [|injection Eb as <-; now right].
      destruct (negb _); [injection Eb as <-; now right|].
      destruct (is_str ty "discrete"); [|discriminate].
      destruct (dict_get entries "path") as [[| | | |]|];
        try discriminate; injection Eb as <-; auto.
    - apply check_config_ok in Eb. contradiction. }
  destruct Hb as (e & Hb & He). exists e. split; [|split; assumption].
  cbn. induction Hgood as [|c good Hc _ IH]; cbn.
  - rewrite Hb. reflexivity.
  - apply check_config_ok in Hc. rewrite Hc. exact IH.
Qed.

Lemma validate_configs_first_offender_witness :
  exists e,
    _validate_configs
      (PyList ([PyDict [("type", PyStr "continuous")]]
               ++ PyDict [("type", PyStr "discrete")] :: [PyOther]))%string
    = inl e
    /\ e = ValueError.
Proof.
  destruct (validate_configs_first_offender
              [PyDict [("type", PyStr "continuous")]]%string
              (PyDict [("type", PyStr "discrete")])%string
              [PyOther])
    as (e & He & Hb & _).
  - constructor; [|constructor].
    eexists. split; [reflexivity|]. left. reflexivity.
  - intros (entries & [= <-] & [H | (_ & path & H)]); discriminate H.
  - exists e. split; [exact He|]. cbn in Hb. congruence.
Defined.



(** The constructor succeeds exactly when the model is callable and the
    configurations are a list of well-formed entries. *)
Theorem init_succeeds_iff
        (model_arg : option (list tensor -> list tensor -> model_output))
        (modality_configs_arg : pyval)
        (source : option (list nat * list Q)) :
  (exists self, __init__ model_arg modality_configs_arg source = inr self)
  <-> ((exists m, model_arg = Some m)
       /\ exists configs,
            modality_configs_arg = PyList configs
            /\ Forall well_formed_config configs).
Proof.
  unfold __init__. split.
  - intros [self H]. destruct model_arg as [m|]; [|discriminate].
    split; [now exists m|].
    destruct (_validate_configs modality_configs_arg) as [e|[]] eqn:Ev;
      [discriminate|].
    destruct modality_configs_arg as [|configs| | |]; cbn in Ev;
      try discriminate.
    exists configs. split; [reflexivity|now apply check_configs_ok].
  - intros [[m ->] (configs & -> & Hwf)]. apply check_configs_ok in Hwf.
    cbn [_validate_configs]. rewrite Hwf. eexists. reflexivity.
Qed.



(** ** Which exceptions come from where *)

Section Raises.

Variable P : primitives.

Local Abbreviation raises_only := (@raises_only P _).

Lemma raises_ret {A : Type} (ok : error -> Prop) (a : A) :
  raises_only ok (ret a).
Proof. intros w e [=]. Qed.

Lemma raises_raise {A : Type} (ok : error -> Prop) (e : error) :
  ok e -> raises_only ok (raise (A := A) e).
Proof. intros He w e' [= <-]. exact He. Qed.

Lemma raises_bind {A B : Type} (ok : error -> Prop) (m : M P A)
      (k : A -> M P B) :
  raises_only ok m ->
  (forall a, raises_only ok (k a)) ->
  raises_only ok (bind m k).
Proof.
  intros Hm Hk w e. unfold bind. specialize (Hm w).
  destruct (m w) as [[e1|a] w1]; cbn in *.
  - intros [= <-]. now apply Hm.
  - apply Hk.
Qed.

Lemma raises_weaken {A : Type} (ok ok' : error -> Prop) (m : M P A) :
  raises_only ok m -> (forall e, ok e -> ok' e) -> raises_only ok' m.
Proof. intros Hm Himp w e He. apply Himp, (Hm w e He). Qed.

Lemma raises_lift {A : Type} (ok : error -> Prop) (r : error + A) :
  (forall e, r = inl e -> ok e) -> raises_only ok (lift r).
Proof.
  intros Hr. destruct r as [e|a]; [|apply raises_ret].
  apply raises_raise. now apply Hr.
Qed.

Lemma raises_item {A : Type} (l : list A) (i : nat) :
  raises_only (fun e => e = IndexError) (item l i).
Proof.
  unfold item. destruct (nth_error l i);
    [apply raises_ret|now apply raises_raise].
Qed.

Lemma raises_load (a : addr) :
  raises_only (fun e => e = RuntimeError) (load a).
Proof.
  intros w e. unfold load. destruct (nth_error (heap w) a); [intros [=]|].
  now intros [= <-].
Qed.

Lemma raises_alloc (ok : error -> Prop) (v : tensor) :
  raises_only ok (alloc v).
Proof. intros w e [=]. Qed.

Lemma raises_store (ok : error -> Prop) (a : addr) (v : tensor) :
  raises_only ok (store a v).
Proof. intros w e [=]. Qed.

Lemma raises_draw_categorical (ok : error -> Prop) (probs : list (list Q)) :
  raises_only ok (draw_categorical probs).
Proof.
  intros w e. unfold draw_categorical.
  destruct (categorical P probs (gen w)). intros [=].
Qed.

Lemma raises_draw_rand (ok : error -> Prop) (n : nat) :
  raises_only ok (draw_rand n).
Proof.
  intros w e. unfold draw_rand. destruct (rand P n (gen w)). intros [=].
Qed.

Lemma raises_clone (a : addr) :
  raises_only (fun e => e = RuntimeError) (clone a).
Proof.
  unfold clone. apply raises_bind; [apply raises_load|].
  intros v. apply raises_alloc.
Qed.

Lemma raises_keep_or_clone (enable_grad : bool) (a : addr) :
  raises_only (fun e => e = RuntimeError) (keep_or_clone enable_grad a).
Proof.
  destruct enable_grad; [apply raises_ret|apply raises_clone].
Qed.

Lemma raises_mapM {A B : Type} (ok : error -> Prop) (f : A -> M P B)
      (l : list A) :
  (forall a, raises_only ok (f a)) -> raises_only ok (mapM f l).
Proof.
  intros Hf. induction l as [|a l IH]; cbn [mapM]; [apply raises_ret|].
  apply raises_bind; [apply Hf|]. intros b.
  apply raises_bind; [apply IH|]. intros bs. apply raises_ret.
Qed.

Lemma one_hot_all_error (V : nat) (xs : list nat) (e : error) :
  one_hot_all V xs = inl e -> e = RuntimeError.
Proof.
  unfold one_hot_all. destruct (forallb _ xs); [discriminate|].
  now intros [= <-].
Qed.

Lemma rate_field_error (source : option (list nat * list Q))
      (c k d : Q) (delta : list (list bool)) (e : error) :
  rate_field source c k d delta = inl e -> e = TypeError.
Proof.
  unfold rate_field. destruct (Qlt_bool 0 c); [|discriminate].
  destruct source as [[s p]|]; [discriminate|]. now intros [= <-].
Qed.

Lemma euler_update_error (h : Q) (x v : tensor) (e : error) :
  euler_update h x v = inl e -> e = RuntimeError.
Proof.
  unfold euler_update. destruct x, v; try (now intros [= <-]).
  destruct (list_nat_eqb _ _); [discriminate|]. now intros [= <-].
Qed.

Lemma tensor_contains_error (self element : list Q) (e : error) :
  tensor_contains self element = inl e -> e = RuntimeError.
Proof.
  unfold tensor_contains.
  repeat match goal with
         | |- context [if ?c then _ else _] => destruct c
         end; try discriminate.
  now intros [= <-].
Qed.

Ltac raises_loop :=
  repeat first
    [ apply raises_ret
    | apply raises_alloc
    | apply raises_store
    | apply raises_draw_categorical
    | apply raises_draw_rand
    | apply raises_raise; unfold loop_error; tauto
    | eapply raises_weaken;
      [ first [ apply raises_load | apply raises_item | apply raises_clone
              | apply raises_keep_or_clone ]
      | unfold loop_error; intros ? ->; tauto ]
    | apply raises_lift;
      let e := fresh "e" in
      let H := fresh "H" in
      intros e H;
      first [ apply one_hot_all_error in H | apply euler_update_error in H
            | apply tensor_contains_error in H | apply rate_field_error in H ];
      subst; unfold loop_error; tauto
    | apply raises_bind; [|intros ?] ].

Lemma raises_discrete_update (self : MultimodalSolver)
      (div_free : div_free_arg) (path : MixtureDiscreteProbPath)
      (i : nat) (n : Z) (t_i : Q) (t_idx : tensor) (h : Q) (x : addr)
      (model_out : tensor) :
  raises_only loop_error
    (discrete_update self div_free path i n t_i t_idx h x model_out).
Proof.
  unfold discrete_update.
  destruct model_out as [shape data|shape data]; [|raises_loop].
  destruct shape as [|s0 shape]; [raises_loop|].
  apply raises_bind; [raises_loop|]. intros x_1.
  destruct (Z.of_nat i =? n - 1)%Z; [raises_loop|].
  apply raises_bind.
  { unfold check_source_shape.
    destruct (source_distribution_p self) as [[s p]|]; [|raises_loop].
    destruct (list_nat_eqb _ _); raises_loop. }
  intros _.
  apply raises_bind; [raises_loop|]. intros delta_1.
  apply raises_bind; [raises_loop|]. intros u.
  apply raises_bind; [raises_loop|]. intros x_t.
  destruct x_t as [s cur|s cur]; [raises_loop|].
  destruct (negb _); [raises_loop|].
  apply raises_bind; [raises_loop|]. intros delta_t.
  apply raises_bind; [raises_loop|]. intros draws.
  destruct (existsb _ _); raises_loop.
Qed.

Lemma raises_update_modalities (self : MultimodalSolver)
      (div_free : div_free_arg) (i : nat) (n : Z) (t_i h : Q)
      (outputs : list tensor) :
  forall (configs : list config) (idx : nat) (states : list addr)
         (t : list tensor),
    raises_only loop_error
      (update_modalities (P := P) self div_free i n t_i h outputs configs
                         idx states t).
Proof.
  induction configs as [|c rest IH]; intros idx states t;
    cbn [update_modalities]; [raises_loop|].
  apply raises_bind; [raises_loop|]. intros model_out.
  apply raises_bind; [raises_loop|]. intros x.
  apply raises_bind; [raises_loop|]. intros t_idx.
  apply raises_bind; [|intros x'; apply IH].
  destruct c as [|path]; [|apply raises_discrete_update].
  unfold continuous_update. raises_loop.
Qed.

Lemma raises_record_intermediates (enable_grad : bool) (time_grid : list Q)
      (t : list tensor) :
  forall (states : list addr) (idx : nat) (intermediates : list (list addr)),
    raises_only loop_error
      (record_intermediates (P := P) enable_grad time_grid states idx t
                            intermediates).
Proof.
  induction states as [|s rest IH]; intros idx intermediates;
    cbn [record_intermediates]; [raises_loop|].
  apply raises_bind; [raises_loop|]. intros t_idx.
  apply raises_bind; [raises_loop|]. intros hit.
  apply raises_bind; [|intros inter'; apply IH].
  destruct hit; raises_loop.
Qed.

Lemma raises_step (self : MultimodalSolver) (div_free : div_free_arg)
      (return_intermediates enable_grad : bool) (d : discretization)
      (time_grid : list Q) (batch_size i : nat)
      (st : list addr * list (list addr)) :
  raises_only loop_error
    (step (P := P) self div_free return_intermediates enable_grad d
          time_grid batch_size i st).
Proof.
  destruct st as [states intermediates]. unfold step. cbv zeta.
  apply raises_bind.
  { apply raises_mapM. intros a. raises_loop. }
  intros xs. destruct (model self xs _) as [outputs|]; [|raises_loop].
  destruct (negb _); [raises_loop|].
  apply raises_bind; [apply raises_update_modalities|].
  intros [states' t'].
  apply raises_bind; [|intros; raises_loop].
  destruct return_intermediates;
    [apply raises_record_intermediates|raises_loop].
Qed.

Lemma raises_steps (self : MultimodalSolver) (div_free : div_free_arg)
      (return_intermediates enable_grad : bool) (d : discretization)
      (time_grid : list Q) (batch_size : nat) :
  forall (count i : nat) (st : list addr * list (list addr)),
    raises_only loop_error
      (steps (P := P) self div_free return_intermediates enable_grad d
             time_grid batch_size count i st).
Proof.
  induction count as [|count IH]; intros i st; cbn [steps];
    [raises_loop|].
  apply raises_bind; [apply raises_step|]. intros st'. apply IH.
Qed.

End Raises.

Lemma item_run (P : primitives) {A : Type} (l : list A) (i : nat)
      (w : world P) :
  item l i w = (inl IndexError, w) \/ exists a, item l i w = (inr a, w).
Proof.
  unfold item. destruct (nth_error l i) as [a|]; [right; now exists a|].
  now left.
Qed.

Lemma load_run (P : primitives) (a : addr) (w : world P) :
  load a w = (inl RuntimeError, w) \/ exists v, load a w = (inr v, w).
Proof.
  unfold load. destruct (nth_error (heap w) a) as [v|];
    [right; now exists v|now left].
Qed.

Lemma discretize_error (time_grid : list Q) (step_size : option Q)
      (e : error) :
  discretize time_grid step_size = inl e ->
  e = IndexError \/ e = AssertionError
  \/ (e = ZeroDivisionError
      /\ exists h, step_size = Some h /\ (h == 0)%Q).
Proof.
  unfold discretize. destruct step_size as [h|]; [|discriminate].
  destruct time_grid as [|t_init rest]; [intros [= <-]; now left|].
  cbv zeta. destruct (negb _); [intros [= <-]; auto|].
  destruct (Qeq_bool h 0) eqn:E; [|discriminate].
  intros [= <-]. right. right. split; [reflexivity|].
  exists h. split; [reflexivity|]. now apply Qeq_bool_iff.
Qed.

Lemma discretize_t_final_none (time_grid : list Q) (step_size : option Q)
      (d : discretization) :
  discretize time_grid step_size = inr d ->
  t_final d = None -> step_size = None.
Proof.
  unfold discretize. destruct step_size as [h|]; [|reflexivity].
  destruct time_grid as [|t_init rest]; [discriminate|].
  cbv zeta. destruct (negb _); [discriminate|].
  destruct (Qeq_bool h 0); [discriminate|].
  intros [= <-]. discriminate.
Qed.

(** Where each exception of [sample] comes from, and what it leaves
    behind. *)
Lemma sample_error_causes
      (P : primitives) (tqdm_available : bool) (self : MultimodalSolver)
      (x_init : list addr) (step_size : option Q) (div_free : div_free_arg)
      (method : string) (time_grid : list Q)
      (return_intermediates enable_grad verbose : bool) (w : world P)
      (e : error) :
  let run := sample tqdm_available self x_init step_size div_free method
                    time_grid return_intermediates enable_grad verbose w in
  fst run = inl e ->
  match e with
  | ValueError =>
      length x_init <> length (modality_configs self) /\ snd run = w
  | NotImplementedError =>
      length x_init = length (modality_configs self)
      /\ method <> "euler"%string /\ snd run = w
  | ZeroDivisionError =>
      (exists h, step_size = Some h /\ (h == 0)%Q) /\ snd run = w
  | ImportError => verbose = true /\ tqdm_available = false
  | UnboundLocalError => verbose = true /\ step_size = None
  | _ => True
  end.
Proof.
  intros run.
  assert (Hr : run = sample tqdm_available self x_init step_size div_free
                            method time_grid return_intermediates
                            enable_grad verbose w) by reflexivity.
  clearbody run. unfold sample in Hr.
  destruct (negb (length x_init =? length (modality_configs self))%nat)
    eqn:E1.
  { subst run. cbn. intros [= <-]. split; [|reflexivity].
    apply negb_true_iff in E1. now apply Nat.eqb_neq. }
  apply negb_false_iff, Nat.eqb_eq in E1.
  destruct (negb (String.eqb method "euler")) eqn:E2.
  { subst run. cbn. intros [= <-]. repeat split; [exact E1|].
    apply negb_true_iff in E2. now apply String.eqb_neq. }
  destruct (div_free_nonzero div_free && _).
  { subst run. cbn. now intros [= <-]. }
  unfold bind at 1 in Hr.
  destruct (item_run P x_init 0 w) as [Hi | [x0 Hi]]; rewrite Hi in Hr;
    [subst run; cbn; now intros [= <-]|].
  unfold bind at 1 in Hr.
  destruct (load_run P x0 w) as [Hl | [v0 Hl]]; rewrite Hl in Hr;
    [subst run; cbn; now intros [= <-]|].
  unfold bind at 1 in Hr.
  destruct (item_run P (shape_of v0) 0 w) as [Hb | [b Hb]]; rewrite Hb in Hr;
    [subst run; cbn; now intros [= <-]|].
  unfold bind at 1 in Hr.
  destruct (discretize time_grid step_size) as [e1|d] eqn:Ed.
  { subst run. cbn. intros [= <-].
    destruct (discretize_error _ _ _ Ed) as [-> | [-> | [-> Hz]]];
      [exact I|exact I|]. split; [exact Hz|reflexivity]. }
  cbn [lift ret] in Hr.
  destruct (recording_plan _ _ _ _) as [order time_grid'].
  set (ok := fun e : error =>
               match e with
               | ValueError | NotImplementedError | ZeroDivisionError => False
               | ImportError => verbose = true /\ tqdm_available = false
               | UnboundLocalError => verbose = true /\ step_size = None
               | _ => True
               end).
  assert (Hloop : forall e', loop_error e' -> ok e').
  { intros e' [-> | [-> | [-> | ->]]]; exact I. }
  subst run.
  match goal with
  | |- fst (?m w) = inl e -> _ =>
      assert (Hm : raises_only ok m); [|intros He; apply Hm in He]
  end.
  { apply raises_bind.
    { apply raises_mapM. intros a.
      eapply raises_weaken; [apply raises_keep_or_clone|].
      intros e' ->. exact I. }
    intros states. apply raises_bind.
    { destruct return_intermediates; [|apply raises_ret].
      apply raises_mapM. intros a. apply raises_bind; [|intros; apply raises_ret].
      eapply raises_weaken; [apply raises_keep_or_clone|].
      intros e' ->. exact I. }
    intros intermediates. apply raises_bind.
    { unfold open_progress. destruct verbose; [|apply raises_ret].
      destruct tqdm_available; cbn [negb].
      - destruct (t_final d) eqn:Et; [apply raises_ret|].
        apply raises_raise. split; [reflexivity|].
        eapply discretize_t_final_none; eauto.
      - apply raises_raise. split; reflexivity. }
    intros _. apply raises_bind.
    { eapply raises_weaken; [apply raises_steps|exact Hloop]. }
    intros [states' intermediates'].
    destruct return_intermediates; [|apply raises_ret].
    destruct step_size; [|apply raises_ret].
    apply raises_bind; [|intros; apply raises_ret].
    apply raises_mapM. intros traj. apply raises_mapM. intros k.
    eapply raises_weaken; [apply raises_item|]. intros e' ->. exact I. }
  destruct e; cbn in He; try exact I; try contradiction; exact He.
Qed.


(** A division by zero can only come from a zero [step_size], nothing was
    cloned by then; [ImportError] and [UnboundLocalError] can only come from
    [verbose = True], the first without the display dependency, the second
    without a step size. *)
Theorem sample_other_errors
        (P : primitives) (tqdm_available : bool) (self : MultimodalSolver)
        (x_init : list addr) (step_size : option Q) (div_free : div_free_arg)
        (method : string) (time_grid : list Q)
        (return_intermediates enable_grad verbose : bool) (w : world P) :
  let run := sample tqdm_available self x_init step_size div_free method
                    time_grid return_intermediates enable_grad verbose w in
  (fst run = inl ZeroDivisionError ->
   (exists h, step_size = Some h /\ (h == 0)%Q) /\ snd run = w)
  /\ (fst run = inl ImportError ->
      verbose = true /\ tqdm_available = false)
  /\ (fst run = inl UnboundLocalError ->
      verbose = true /\ step_size = None).
Proof.
  intros run.
  pose proof (sample_error_causes P tqdm_available self x_init step_size
                div_free method time_grid return_intermediates enable_grad
                verbose w) as H.
  cbv zeta in H. fold run in H.
  split; [|split]; intros He; apply H in He; tauto.
Qed.

(** ** Solvers with continuous modalities only *)

Section AllocatesOnly.

Variable P : primitives.

Local Abbreviation allocates_only := (@allocates_only P _).

Lemma allocates_ret {A : Type} (a : A) (post : A -> Prop) :
  post a -> allocates_only (ret a) post.
Proof.
  intros Ha w. cbn. split; [exists []; now rewrite app_nil_r|].
  split; [reflexivity|]. now intros a' [= <-].
Qed.

Lemma allocates_raise {A : Type} (e : error) (post : A -> Prop) :
  allocates_only (raise e) post.
Proof.
  intros w. cbn. split; [exists []; now rewrite app_nil_r|].
  split; [reflexivity|]. intros a' [=].
Qed.

Lemma allocates_bind {A B : Type} (m : M P A) (k : A -> M P B)
      (mid : A -> Prop) (post : B -> Prop) :
  allocates_only m mid ->
  (forall a, mid a -> allocates_only (k a) post) ->
  allocates_only (bind m k) post.
Proof.
  intros Hm Hk w. unfold bind.
  destruct (Hm w) as ([r1 H1] & G1 & R1).
  destruct (m w) as [[e|a] w1]; cbn in *.
  - split; [now exists r1|]. split; [exact G1|]. intros a' [=].
  - destruct (Hk a (R1 a eq_refl) w1) as ([r2 H2] & G2 & R2).
    split; [|split; [congruence|exact R2]].
    exists (r1 ++ r2). rewrite H2, H1, app_assoc. reflexivity.
Qed.

Lemma allocates_weaken {A : Type} (m : M P A) (post post' : A -> Prop) :
  allocates_only m post -> (forall a, post a -> post' a) ->
  allocates_only m post'.
Proof.
  intros Hm Himp w. destruct (Hm w) as (H1 & G1 & R1).
  split; [exact H1|]. split; [exact G1|]. intros a Ha. apply Himp, R1, Ha.
Qed.

Lemma allocates_lift {A : Type} (r : error + A) :
  allocates_only (lift r) (fun _ => True).
Proof.
  destruct r; [apply allocates_raise|now apply allocates_ret].
Qed.

Lemma allocates_item {A : Type} (l : list A) (i : nat) :
  allocates_only (item l i) (fun a => nth_error l i = Some a).
Proof.
  unfold item. destruct (nth_error l i);
    [now apply allocates_ret|apply allocates_raise].
Qed.

Lemma allocates_load (a : addr) : allocates_only (load a) (fun _ => True).
Proof.
  intros w. unfold load. destruct (nth_error (heap w) a); cbn;
    (split; [exists []; now rewrite app_nil_r|]); split; auto;
    intros ? [=].
Qed.

Lemma allocates_alloc (v : tensor) : allocates_only (alloc v) (fun _ => True).
Proof.
  intros w. unfold alloc. cbn. split; [now exists [v]|]. split; auto.
Qed.

Lemma allocates_keep_or_clone (enable_grad : bool) (a : addr) :
  allocates_only (keep_or_clone enable_grad a) (fun _ => True).
Proof.
  destruct enable_grad; [now apply allocates_ret|].
  unfold keep_or_clone, clone.
  eapply allocates_bind; [apply allocates_load|]. intros v _.
  apply allocates_alloc.
Qed.

Lemma allocates_mapM {A B : Type} (f : A -> M P B) (l : list A) :
  (forall a, allocates_only (f a) (fun _ => True)) ->
  allocates_only (mapM f l) (fun _ => True).
Proof.
  intros Hf. induction l as [|a l IH]; cbn [mapM];
    [now apply allocates_ret|].
  eapply allocates_bind; [apply Hf|]. intros b _.
  eapply allocates_bind; [apply IH|]. intros bs _. now apply allocates_ret.
Qed.

Lemma allocates_update_modalities (self : MultimodalSolver)
      (div_free : div_free_arg) (i : nat) (n : Z) (t_i h : Q)
      (outputs : list tensor) :
  forall (configs : list config) (idx : nat) (states : list addr)
         (t : list tensor),
    Forall (fun c => c = continuous) configs ->
    allocates_only
      (update_modalities (P := P) self div_free i n t_i h outputs configs
                         idx states t)
      (fun _ => True).
Proof.
  induction configs as [|c rest IH]; intros idx states t Hc;
    cbn [update_modalities]; [now apply allocates_ret|].
  inversion Hc as [|c' rest' Hc0 Hrest]; subst.
  eapply allocates_bind; [apply allocates_item|]. intros model_out _.
  eapply allocates_bind; [apply allocates_item|]. intros x _.
  eapply allocates_bind; [apply allocates_item|]. intros t_idx _.
  eapply allocates_bind with (mid := fun _ => True);
    [|intros x' _; now apply IH].
  unfold continuous_update.
  eapply allocates_bind; [apply allocates_load|]. intros x_t _.
  eapply allocates_bind; [apply allocates_lift|]. intros x_next _.
  apply allocates_alloc.
Qed.

Lemma allocates_record_intermediates (enable_grad : bool)
      (time_grid : list Q) (t : list tensor) :
  forall (states : list addr) (idx : nat) (intermediates : list (list addr)),
    allocates_only
      (record_intermediates (P := P) enable_grad time_grid states idx t
                            intermediates)
      (fun _ => True).
Proof.
  induction states as [|s rest IH]; intros idx intermediates;
    cbn [record_intermediates]; [now apply allocates_ret|].
  eapply allocates_bind; [apply allocates_item|]. intros t_idx _.
  eapply allocates_bind; [apply allocates_lift|]. intros hit _.
  eapply allocates_bind with (mid := fun _ => True);
    [|intros inter' _; apply IH].
  destruct hit; [|now apply allocates_ret].
  eapply allocates_bind; [apply allocates_item|]. intros traj _.
  eapply allocates_bind; [apply allocates_keep_or_clone|]. intros a _.
  now apply allocates_ret.
Qed.

Lemma allocates_steps (self : MultimodalSolver) (div_free : div_free_arg)
      (return_intermediates enable_grad : bool) (d : discretization)
      (time_grid : list Q) (batch_size : nat) :
  Forall (fun c => c = continuous) (modality_configs self) ->
  forall (count i : nat) (st : list addr * list (list addr)),
    allocates_only
      (steps (P := P) self div_free return_intermediates enable_grad d
             time_grid batch_size count i st)
      (fun _ => True).
Proof.
  intros Hc. induction count as [|count IH]; intros i st; cbn [steps];
    [now apply allocates_ret|].
  eapply allocates_bind with (mid := fun _ => True); [|intros; apply IH].
  destruct st as [states intermediates]. unfold step. cbv zeta.
  eapply allocates_bind; [apply allocates_mapM; apply allocates_load|].
  intros xs _.
  destruct (model self xs _) as [outputs|]; [|apply allocates_raise].
  destruct (negb _); [apply allocates_raise|].
  eapply allocates_bind; [now apply allocates_update_modalities|].
  intros [states' t'] _.
  eapply allocates_bind with (mid := fun _ => True);
    [|intros; now apply allocates_ret].
  destruct return_intermediates;
    [apply allocates_record_intermediates|now apply allocates_ret].
Qed.

End AllocatesOnly.

(** A solver whose modalities are all continuous draws no random number and
    writes into no existing tensor, with or without [enable_grad], whether
    [sample] returns or raises: the store afterwards is the store before,
    followed by the tensors allocated during the call. *)
Theorem continuous_only_allocates
        (P : primitives) (tqdm_available : bool) (self : MultimodalSolver)
        (x_init : list addr) (step_size : option Q) (div_free : div_free_arg)
        (method : string) (time_grid : list Q)
        (return_intermediates enable_grad verbose : bool) (w : world P) :
  Forall (fun c => c = continuous) (modality_configs self) ->
  let w' := snd (sample tqdm_available self x_init step_size div_free method
                        time_grid return_intermediates enable_grad verbose
                        w) in
  gen w' = gen w /\ exists rest, heap w' = heap w ++ rest.
Proof.
  intros Hc w'. subst w'.
  assert (H : allocates_only
                (sample (P := P) tqdm_available self x_init step_size
                        div_free method time_grid return_intermediates
                        enable_grad verbose)
                (fun _ => True)).
  { unfold sample.
    destruct (negb (length x_init =? _)%nat); [apply allocates_raise|].
    destruct (negb (String.eqb method _)); [apply allocates_raise|].
    destruct (div_free_nonzero div_free && _); [apply allocates_raise|].
    eapply allocates_bind; [apply allocates_item|]. intros x0 _.
    eapply allocates_bind; [apply allocates_load|]. intros v0 _.
    eapply allocates_bind; [apply allocates_item|]. intros b _.
    eapply allocates_bind; [apply allocates_lift|]. intros d _.
    destruct (recording_plan _ _ _ _) as [order time_grid'].
    eapply allocates_bind;
      [apply allocates_mapM; intros; apply allocates_keep_or_clone|].
    intros states _.
    eapply allocates_bind with (mid := fun _ => True).
    { destruct return_intermediates; [|now apply allocates_ret].
      apply allocates_mapM. intros x.
      eapply allocates_bind; [apply allocates_keep_or_clone|].
      intros a _. now apply allocates_ret. }
    intros intermediates _.
    eapply allocates_bind with (mid := fun _ => True).
    { unfold open_progress. destruct verbose; [|now apply allocates_ret].
      destruct (negb tqdm_available); [apply allocates_raise|].
      destruct (t_final d); [now apply allocates_ret|apply allocates_raise]. }
    intros _ _.
    eapply allocates_bind; [now apply allocates_steps|].
    intros [states' intermediates'] _.
    destruct return_intermediates; [|now apply allocates_ret].
    destruct step_size; [|now apply allocates_ret].
    eapply allocates_bind with (mid := fun _ => True);
      [|intros; now apply allocates_ret].
    apply allocates_mapM. intros traj. apply allocates_mapM. intros k.
    eapply allocates_weaken; [apply allocates_item|auto]. }
  destruct (H w) as (Hh & Hg & _). split; [exact Hg|exact Hh].
Qed.

Lemma continuous_only_allocates_witness :
  let w := fixed_world [Float [1%nat] [0]] in
  let w' := snd (sample true failing_solver [0%nat] None (DivConst 0)
                        "euler" [0; 1 # 2; 1]%Q true true false w) in
  gen w' = gen w /\ exists rest, heap w' = heap w ++ rest.
Proof.
  apply (continuous_only_allocates fixed_primitives true failing_solver
           [0%nat] None (DivConst 0) "euler" [0; 1 # 2; 1]%Q true true false
           (fixed_world [Float [1%nat] [0]])).
  repeat constructor.
Defined.

(** ** What [sample] returns: one entry per modality, in tensors of its own *)

Lemma length_list_set {A : Type} (x : A) :
  forall (l : list A) (i : nat), length (list_set l i x) = length l.
Proof.
  induction l as [|a l IH]; intros [|i]; cbn; auto.
Qed.

Section Results.

Variable P : primitives.
Variable h0 : list tensor.

Local Abbreviation fresh := (fresh h0).
Local Abbreviation framed := (@framed P _ h0).

Local Abbreviation state_inv := (state_inv h0).

Lemma framed_mapM_length {A B : Type} (f : A -> M P B) (post : B -> Prop)
      (l : list A) :
  (forall a, In a l -> framed (f a) post) ->
  framed (mapM f l) (fun bs => Forall post bs /\ length bs = length l).
Proof.
  induction l as [|a l IH]; intros Hf; cbn [mapM].
  - apply framed_ret. split; [constructor|reflexivity].
  - eapply framed_bind; [apply Hf; now left|]. intros b Hb.
    eapply framed_bind; [apply IH; intros; apply Hf; now right|].
    intros bs [Hbs Hlen]. apply framed_ret. split; [now constructor|].
    cbn. now rewrite Hlen.
Qed.

Lemma framed_update_modalities_length (self : MultimodalSolver)
      (div_free : div_free_arg) (i : nat) (n : Z) (t_i h : Q)
      (outputs : list tensor) :
  forall (configs : list config) (idx : nat) (states : list addr)
         (t : list tensor),
    Forall fresh states ->
    framed (update_modalities (P := P) self div_free i n t_i h outputs
                              configs idx states t)
           (fun st => Forall fresh (fst st)
                      /\ length (fst st) = length states).
Proof.
  induction configs as [|config rest IH]; intros idx states t Hst;
    cbn [update_modalities].
  - apply framed_ret. now split.
  - eapply framed_bind; [apply framed_item|]. intros model_out _.
    eapply framed_bind; [apply framed_item|]. intros x Hx.
    eapply framed_bind; [apply framed_item|]. intros t_idx _.
    eapply framed_bind with (mid := fresh).
    + destruct config as [|path].
      * apply framed_continuous_update.
      * apply framed_discrete_update.
        exact (Forall_nth_error fresh states idx x Hst Hx).
    + intros x' Hx'. eapply framed_weaken.
      * apply IH. now apply Forall_list_set.
      * intros st [H1 H2]. split; [exact H1|].
        now rewrite H2, length_list_set.
Qed.

Lemma framed_record_intermediates_inv (enable_grad : bool)
      (time_grid : list Q) (t : list tensor) :
  forall (states : list addr) (idx : nat) (intermediates : list (list addr)),
    Forall fresh states ->
    Forall (Forall fresh) intermediates ->
    framed (record_intermediates (P := P) enable_grad time_grid states idx t
                                 intermediates)
           (fun inter' => Forall (Forall fresh) inter'
                          /\ length inter' = length intermediates).
Proof.
  induction states as [|s rest IH]; intros idx intermediates Hst Hin;
    cbn [record_intermediates].
  - apply framed_ret. now split.
  - inversion Hst as [|s' rest' Hs Hrest]; subst.
    eapply framed_bind; [apply framed_item|]. intros t_idx _.
    eapply framed_bind; [apply framed_lift|]. intros hit _.
    eapply framed_bind
      with (mid := fun inter' => Forall (Forall fresh) inter'
                                 /\ length inter' = length intermediates).
    + destruct hit; [|apply framed_ret; now split].
      eapply framed_bind; [apply framed_item|]. intros traj Htraj.
      eapply framed_bind with (mid := fresh).
      * destruct enable_grad; [now apply framed_ret|apply framed_clone].
      * intros a Ha. apply framed_ret. split.
        -- apply Forall_list_set; [exact Hin|].
           apply Forall_app. split; [|now constructor].
           exact (Forall_nth_error (Forall fresh) intermediates idx traj
                    Hin Htraj).
        -- apply length_list_set.
    + intros inter' [H1 H2]. eapply framed_weaken; [now apply IH|].
      intros inter'' [H3 H4]. split; [exact H3|congruence].
Qed.

Lemma framed_steps_inv (self : MultimodalSolver) (div_free : div_free_arg)
      (return_intermediates enable_grad : bool) (d : discretization)
      (time_grid : list Q) (batch_size : nat) (M K : nat) :
  forall (count i : nat) (st : list addr * list (list addr)),
    state_inv M K st ->
    framed (steps (P := P) self div_free return_intermediates enable_grad d
                  time_grid batch_size count i st)
           (state_inv M K).
Proof.
  induction count as [|count IH]; intros i st Hst; cbn [steps];
    [now apply framed_ret|].
  eapply framed_bind with (mid := state_inv M K); [|intros; now apply IH].
  destruct st as [states intermediates].
  destruct Hst as (Hs & Hlen & Hi & Hk). cbn [fst snd] in *.
  unfold step. cbv zeta.
  eapply framed_bind with (mid := fun _ => True).
  { eapply framed_weaken; [apply framed_mapM, framed_load|auto]. }
  intros xs _.
  destruct (model self xs _) as [outputs|]; [|apply framed_raise].
  destruct (negb _); [apply framed_raise|].
  eapply framed_bind; [now apply framed_update_modalities_length|].
  intros [states' t'] [Hs' Hlen']. cbn [fst] in *.
  eapply framed_bind
    with (mid := fun inter' => Forall (Forall fresh) inter'
                               /\ length inter' = K).
  - destruct return_intermediates; [|apply framed_ret; now split].
    eapply framed_weaken;
      [now apply framed_record_intermediates_inv|].
    intros inter' [H1 H2]. split; [exact H1|congruence].
  - intros inter' [H1 H2]. apply framed_ret.
    repeat split; cbn [fst snd]; auto. congruence.
Qed.

Lemma framed_sample_inv (tqdm_available : bool) (self : MultimodalSolver)
      (x_init : list addr) (step_size : option Q) (div_free : div_free_arg)
      (method : string) (time_grid : list Q)
      (return_intermediates enable_grad verbose : bool) :
  enable_grad = false \/ h0 = [] ->
  framed (sample (P := P) tqdm_available self x_init step_size div_free
                 method time_grid return_intermediates enable_grad verbose)
         (fun r =>
            match r with
            | States states =>
                return_intermediates = false
                /\ Forall fresh states
                /\ length states = length x_init
            | Trajectories tr =>
                return_intermediates = true
                /\ Forall (Forall fresh) tr
                /\ length tr = length x_init
            end).
Proof.
  intros Heg.
  assert (Hkeep : forall a, framed (keep_or_clone (P := P) enable_grad a)
                                   fresh).
  { intros a. destruct Heg as [-> | ->]; [apply framed_clone|].
    destruct enable_grad; [|apply framed_clone].
    apply framed_ret. apply Nat.le_0_l. }
  unfold sample.
  destruct (negb (length x_init =? _)%nat); [apply framed_raise|].
  destruct (negb (String.eqb method _)); [apply framed_raise|].
  destruct (div_free_nonzero div_free && _); [apply framed_raise|].
  eapply framed_bind; [apply framed_item|]. intros x0 _.
  eapply framed_bind; [apply framed_load|]. intros v0 _.
  eapply framed_bind; [apply framed_item|]. intros b _.
  eapply framed_bind; [apply framed_lift|]. intros d _.
  destruct (recording_plan _ _ _ _) as [order time_grid'].
  eapply framed_bind;
    [apply framed_mapM_length with (post := fresh); intros; apply Hkeep|].
  intros states [Hstates Hlen].
  eapply framed_bind
    with (mid := fun inter =>
                   Forall (Forall fresh) inter
                   /\ length inter
                      = if return_intermediates then length x_init else 0%nat).
  { destruct return_intermediates;
      [|apply framed_ret; split; [constructor|reflexivity]].
    apply framed_mapM_length with (post := Forall fresh). intros x _.
    eapply framed_bind; [apply Hkeep|]. intros a Ha.
    apply framed_ret. now repeat constructor. }
  intros intermediates [Hinter Hk].
  eapply framed_bind with (mid := fun _ => True).
  { unfold open_progress. destruct verbose; [|now apply framed_ret].
    destruct (negb tqdm_available); [apply framed_raise|].
    destruct (t_final d); [now apply framed_ret|apply framed_raise]. }
  intros _ _.
  eapply framed_bind.
  { apply framed_steps_inv
      with (M := length x_init)
           (K := if return_intermediates then length x_init else 0%nat).
    repeat split; assumption. }
  intros [states' intermediates'] (Hs' & Hlen' & Hi' & Hk').
  cbn [fst snd] in *.
  destruct return_intermediates; [|apply framed_ret; now repeat split].
  destruct step_size; [|apply framed_ret; now repeat split].
  eapply framed_bind.
  { apply framed_mapM_length with (post := Forall fresh).
    intros traj Htraj.
    eapply framed_weaken.
    - apply framed_mapM_length
        with (post := fun a => In a traj). intros k _.
      eapply framed_weaken; [apply framed_item|].
      intros a Ha. exact (nth_error_In traj k Ha).
    - intros bs [Hbs _]. rewrite Forall_forall in *.
      intros a Ha. specialize (Hbs a Ha). cbv beta in Hbs.
      exact (proj1 (Forall_forall _ _) (Hi' traj Htraj) a Hbs). }
  intros reordered [H1 H2]. apply framed_ret.
  repeat split; [exact H1|congruence].
Qed.

End Results.

(** [sample] returns one final state per modality, or with
    [return_intermediates] one trajectory per modality, whatever the
    arguments. *)
Theorem sample_returns_one_entry_per_modality
        (P : primitives) (tqdm_available : bool) (self : MultimodalSolver)
        (x_init : list addr) (step_size : option Q) (div_free : div_free_arg)
        (method : string) (time_grid : list Q)
        (return_intermediates enable_grad verbose : bool) (w : world P)
        (r : sample_result) :
  fst (sample tqdm_available self x_init step_size div_free method time_grid
              return_intermediates enable_grad verbose w) = inr r ->
  match r with
  | States states =>
      return_intermediates = false
      /\ length states = length (modality_configs self)
  | Trajectories tr =>
      return_intermediates = true
      /\ length tr = length (modality_configs self)
  end.
Proof.
  intros Hr.
  assert (Hlen : length x_init = length (modality_configs self)).
  { unfold sample in Hr.
    destruct (length x_init =? length (modality_configs self))%nat eqn:E;
      [now apply Nat.eqb_eq|discriminate]. }
  destruct (framed_sample_inv P [] tqdm_available self x_init step_size
              div_free method time_grid return_intermediates enable_grad
              verbose (or_intror eq_refl) w) as [_ Hpost].
  { exists (heap w). reflexivity. }
  specialize (Hpost r Hr). destruct r; rewrite <- Hlen; tauto.
Qed.

Lemma sample_returns_one_entry_per_modality_witness :
  exists tr,
    fst (sample true unit_velocity_solver [0%nat] None (DivConst 0) "euler"
                [0; 1 # 2; 1]%Q true false false
                (fixed_world [Float [1%nat] [0]]))
    = inr (Trajectories tr)
    /\ length tr = 1%nat.
Proof.
  eexists. split; [vm_compute; reflexivity|].
  exact (proj2 (sample_returns_one_entry_per_modality fixed_primitives true
                  unit_velocity_solver [0%nat] None (DivConst 0) "euler"
                  [0; 1 # 2; 1]%Q true false false
                  (fixed_world [Float [1%nat] [0]]) (Trajectories _)
                  eq_refl)).
Defined.

(** With [enable_grad = False] every tensor that [sample] returns, final
    state or snapshot, was allocated during the call: none of them is one of
    the caller's tensors. *)
Theorem sample_returns_new_tensors
        (P : primitives) (tqdm_available : bool) (self : MultimodalSolver)
        (x_init : list addr) (step_size : option Q) (div_free : div_free_arg)
        (method : string) (time_grid : list Q)
        (return_intermediates verbose : bool) (w : world P)
        (r : sample_result) :
  fst (sample tqdm_available self x_init step_size div_free method time_grid
              return_intermediates false verbose w) = inr r ->
  match r with
  | States states => Forall (fun a => (length (heap w) <= a)%nat) states
  | Trajectories tr =>
      Forall (Forall (fun a => (length (heap w) <= a)%nat)) tr
  end.
Proof.
  intros Hr.
  destruct (framed_sample_inv P (heap w) tqdm_available self x_init
              step_size div_free method time_grid return_intermediates
              false verbose (or_introl eq_refl) w) as [_ Hpost].
  { exists []. now rewrite app_nil_r. }
  specialize (Hpost r Hr). destruct r; apply Hpost.
Qed.

Lemma sample_returns_new_tensors_witness :
  exists states,
    fst (sample true unit_velocity_solver [0%nat] None (DivConst 0) "euler"
                [0; 1]%Q false false false
                (fixed_world [Float [1%nat] [0]]))
    = inr (States states)
    /\ Forall (fun a => (1 <= a)%nat) states.
Proof.
  eexists. split; [vm_compute; reflexivity|].
  exact (sample_returns_new_tensors fixed_primitives true
           unit_velocity_solver [0%nat] None (DivConst 0) "euler"
           [0; 1]%Q false false
           (fixed_world [Float [1%nat] [0]]) (States _) eq_refl).
Defined.

(** ** The uniform discretization *)






(** ** Calls that take no step *)

Lemma mapM_keep_or_clone_copies (P : primitives) (enable_grad : bool) :
  forall (l : list addr) (w : world P),
    Forall (fun a => nth_error (heap w) a <> None) l ->
    exists states w',
      mapM (keep_or_clone enable_grad) l w = (inr states, w')
      /\ (exists rest, heap w' = heap w ++ rest)
      /\ gen w' = gen w
      /\ Forall2 (fun a s => nth_error (heap w') s = nth_error (heap w) a)
                 l states.
Proof.
  induction l as [|a l IH]; intros w Hl.
  - exists [], w. cbn. split; [reflexivity|].
    split; [exists []; now rewrite app_nil_r|]. split; [reflexivity|].
    constructor.
  - inversion Hl as [|a' l' Ha Hrest]; subst.
    destruct (nth_error (heap w) a) as [v|] eqn:Ev; [|contradiction].
    assert (Hone : exists s w1,
               keep_or_clone enable_grad a w = (inr s, w1)
               /\ (exists rest, heap w1 = heap w ++ rest)
               /\ gen w1 = gen w
               /\ nth_error (heap w1) s = Some v).
    { destruct enable_grad.
      - exists a, w. cbn. split; [reflexivity|].
        split; [exists []; now rewrite app_nil_r|]. now split.
      - exists (length (heap w)),
          {| heap := heap w ++ [v]; gen := gen w |}.
        cbn. unfold clone, bind, load. rewrite Ev. cbn.
        split; [reflexivity|]. split; [now exists [v]|].
        split; [reflexivity|].
        rewrite nth_error_app2 by lia. now rewrite Nat.sub_diag. }
    destruct Hone as (s & w1 & Hs & [r1 Hh1] & Hg1 & Hv1).
    destruct (IH w1) as (states & w' & Hrun & [r2 Hh2] & Hg2 & Hall).
    { eapply Forall_impl; [|exact Hrest]. intros b Hb. cbv beta in *.
      rewrite Hh1. intros Hn. apply Hb.
      apply nth_error_None in Hn. apply nth_error_None.
      rewrite length_app in Hn. lia. }
    assert (Hkeep : forall b, nth_error (heap w) b <> None ->
                              nth_error (heap w1) b = nth_error (heap w) b).
    { intros b Hb. rewrite Hh1. apply nth_error_app1.
      now apply nth_error_Some. }
    exists (s :: states), w'. cbn [mapM]. unfold bind at 1. rewrite Hs.
    unfold bind at 1. rewrite Hrun. cbn [ret].
    split; [reflexivity|]. split.
    { exists (r1 ++ r2). rewrite Hh2, Hh1, app_assoc. reflexivity. }
    split; [congruence|]. constructor.
    + rewrite Ev, <- Hv1. rewrite Hh2. apply nth_error_app1.
      apply nth_error_Some. congruence.
    + clear - Hall Hrest Hkeep.
      revert states Hall. induction Hrest as [|b l Hb _ IHl];
        intros states Hall; inversion Hall; subst; constructor.
      * rewrite <- (Hkeep b Hb). assumption.
      * now apply IHl.
Qed.

Lemma sample_without_steps
      (P : primitives) (tqdm_available enable_grad : bool)
      (self : MultimodalSolver) (x_init : list addr) (step_size : option Q)
      (time_grid : list Q) (d : discretization) (w : world P) :
  length x_init = length (modality_configs self) ->
  Forall (fun a => nth_error (heap w) a <> None) x_init ->
  (exists x0 v0 b,
      nth_error x_init 0 = Some x0
      /\ nth_error (heap w) x0 = Some v0
      /\ nth_error (shape_of v0) 0 = Some b) ->
  discretize time_grid step_size = inr d ->
  (n_steps d <= 0)%Z ->
  exists states w',
    sample tqdm_available self x_init step_size (DivConst 0) "euler"
           time_grid false enable_grad false w
    = (inr (States states), w')
    /\ gen w' = gen w
    /\ Forall2 (fun a s => nth_error (heap w') s = nth_error (heap w) a)
               x_init states.
Proof.
  intros Hlen Hvalid (x0 & v0 & b & Hx0 & Hv0 & Hb) Hd Hn.
  destruct (mapM_keep_or_clone_copies P enable_grad x_init w Hvalid)
    as (states & w' & Hrun & _ & Hg & Hall).
  exists states, w'. split; [|split; assumption].
  unfold sample. apply Nat.eqb_eq in Hlen. rewrite Hlen.
  cbn [negb div_free_nonzero andb].
  change (String.eqb "euler" "euler") with true.
  change (Qeq_bool 0 0) with true. cbn [negb andb].
  unfold bind at 1. unfold item at 1. rewrite Hx0. cbn [ret].
  unfold bind at 1. unfold load at 1. rewrite Hv0.
  unfold bind at 1. unfold item at 1. rewrite Hb. cbn [ret].
  unfold bind at 1. rewrite Hd. cbn [lift ret].
  assert (Hplan : recording_plan step_size false time_grid
                                 (t_discretization d) = ([], time_grid))
    by (destruct step_size; reflexivity).
  rewrite Hplan.
  unfold bind at 1. rewrite Hrun.
  unfold bind at 1. cbn [ret].
  unfold bind at 1. cbn [open_progress ret].
  replace (Z.to_nat (n_steps d)) with 0%nat by lia.
  reflexivity.
Qed.

(** A negative [step_size] passes the assertion whenever the grid does not
    end before it starts; [ceil] of the negative quotient is not positive,
    so no step is taken: without ever calling the model, [sample] returns
    the initial states (copies of them without [enable_grad]). *)
Theorem negative_step_size_takes_no_step
        (P : primitives) (tqdm_available enable_grad : bool)
        (self : MultimodalSolver) (x_init : list addr)
        (t_init : Q) (rest : list Q) (step_size : Q) (w : world P) :
  let time_grid := t_init :: rest in
  length x_init = length (modality_configs self) ->
  Forall (fun a => nth_error (heap w) a <> None) x_init ->
  (exists x0 v0 b,
      nth_error x_init 0 = Some x0
      /\ nth_error (heap w) x0 = Some v0
      /\ nth_error (shape_of v0) 0 = Some b) ->
  (step_size < 0)%Q ->
  (t_init <= last time_grid t_init)%Q ->
  exists states w',
    sample tqdm_available self x_init (Some step_size) (DivConst 0) "euler"
           time_grid false enable_grad false w
    = (inr (States states), w')
    /\ gen w' = gen w
    /\ Forall2 (fun a s => nth_error (heap w') s = nth_error (heap w) a)
               x_init states.
Proof.
  intros time_grid Hlen Hvalid Hfirst Hneg Hgrid.
  set (t_fin := last time_grid t_init) in *.
  assert (Hlt : (step_size < t_fin - t_init)%Q) by lra.
  assert (Hnz : ~ (step_size == 0)%Q) by lra.
  eapply sample_without_steps; eauto.
  - exact (discretize_numeric t_init rest step_size Hlt Hnz).
  - cbn [n_steps]. fold time_grid. fold t_fin.
    assert (Hq : ((t_fin - t_init) / step_size <= 0)%Q).
    { assert (E : ((t_fin - t_init) / step_size
                   == - ((t_fin - t_init) / - step_size))%Q)
        by (field; exact Hnz).
      assert (Hp : (0 <= (t_fin - t_init) / - step_size)%Q).
      { apply Qle_shift_div_l; [lra|]. lra. }
      rewrite E. lra. }
    assert (Hc : (inject_Z (Qceiling ((t_fin - t_init) / step_size) - 1)
                  < 0)%Q).
    { eapply Qlt_le_trans; [apply Qceiling_lt|exact Hq]. }
    change 0%Q with (inject_Z 0) in Hc. rewrite <- Zlt_Qlt in Hc. lia.
Qed.

Lemma negative_step_size_takes_no_step_witness :
  exists states w',
    sample true
           {| model := constant_model NonSeq;
              modality_configs := [continuous];
              source_distribution_p := None |}
           [0%nat] (Some (- (1 # 2))) (DivConst 0) "euler" [0; 1]%Q
           false false false (fixed_world [Float [1%nat] [7]])
    = (inr (States states), w')
    /\ Forall2 (fun a s => nth_error (heap w') s
                           = nth_error [Float [1%nat] [7%Q]] a)
               [0%nat] states.
Proof.
  destruct (negative_step_size_takes_no_step fixed_primitives true false
              {| model := constant_model NonSeq;
                 modality_configs := [continuous];
                 source_distribution_p := None |}
              [0%nat] 0 [1]%Q (- (1 # 2)) (fixed_world [Float [1%nat] [7]]))
    as (states & w' & Hrun & _ & Hall).
  - reflexivity.
  - constructor; [discriminate|constructor].
  - exists 0%nat, (Float [1%nat] [7]), 1%nat. repeat split.
  - reflexivity.
  - discriminate.
  - exists states, w'. split; [exact Hrun|exact Hall].
Defined.

(** With [step_size = None] and a grid of at most one point the loop is
    empty: [sample] returns the initial states without calling the model. *)
Theorem short_grid_takes_no_step
        (P : primitives) (tqdm_available enable_grad : bool)
        (self : MultimodalSolver) (x_init : list addr)
        (time_grid : list Q) (w : world P) :
  length x_init = length (modality_configs self) ->
  Forall (fun a => nth_error (heap w) a <> None) x_init ->
  (exists x0 v0 b,
      nth_error x_init 0 = Some x0
      /\ nth_error (heap w) x0 = Some v0
      /\ nth_error (shape_of v0) 0 = Some b) ->
  (length time_grid <= 1)%nat ->
  exists states w',
    sample tqdm_available self x_init None (DivConst 0) "euler"
           time_grid false enable_grad false w
    = (inr (States states), w')
    /\ gen w' = gen w
    /\ Forall2 (fun a s => nth_error (heap w') s = nth_error (heap w) a)
               x_init states.
Proof.
  intros Hlen Hvalid Hfirst Hgrid.
  eapply sample_without_steps; eauto.
  - reflexivity.
  - cbn [n_steps]. lia.
Qed.

Lemma short_grid_takes_no_step_witness :
  exists states w',
    sample true
           {| model := constant_model NonSeq;
              modality_configs := [continuous];
              source_distribution_p := None |}
           [0%nat] None (DivConst 0) "euler" [1 # 2]%Q
           false false false (fixed_world [Float [1%nat] [7]])
    = (inr (States states), w')
    /\ Forall2 (fun a s => nth_error (heap w') s
                           = nth_error [Float [1%nat] [7%Q]] a)
               [0%nat] states.
Proof.
  destruct (short_grid_takes_no_step fixed_primitives true false
              {| model := constant_model NonSeq;
                 modality_configs := [continuous];
                 source_distribution_p := None |}
              [0%nat] [1 # 2]%Q (fixed_world [Float [1%nat] [7]]))
    as (states & w' & Hrun & _ & Hall).
  - reflexivity.
  - constructor; [discriminate|constructor].
  - exists 0%nat, (Float [1%nat] [7]), 1%nat. repeat split.
  - cbn. lia.
  - exists states, w'. split; [exact Hrun|exact Hall].
Defined.

(** ** The jump of a discrete modality *)

Lemma length_scatter :
  forall (cur : list nat) (mask : list bool) (vals : list nat),
    length (scatter mask vals cur) = length cur.
Proof.
  induction cur as [|c cur IH]; intros [|[|] mask] vals; cbn; auto.
  destruct vals; cbn; auto.
Qed.

Lemma nth_error_scatter_unmasked :
  forall (cur : list nat) (mask : list bool) (vals : list nat) (c : nat),
    nth c mask false = false ->
    nth_error (scatter mask vals cur) c = nth_error cur c.
Proof.
  induction cur as [|x cur IH]; intros mask vals c Hc.
  - destruct mask as [|[|] mask]; reflexivity.
  - destruct mask as [|[|] mask]; [reflexivity| |].
    + destruct c as [|c]; [discriminate|]. cbn in Hc.
      destruct vals; cbn; now apply IH.
    + destruct c as [|c]; [reflexivity|]. cbn in Hc. cbn. now apply IH.
Qed.

Lemma nth_error_list_set_same {A : Type} (x : A) :
  forall (l : list A) (i : nat),
    (i < length l)%nat -> nth_error (list_set l i x) i = Some x.
Proof.
  induction l as [|a l IH]; intros [|i] Hi; cbn in *; try lia; auto.
  apply IH. lia.
Qed.

Lemma nth_error_list_set_other {A : Type} (x : A) :
  forall (l : list A) (i j : nat),
    i <> j -> nth_error (list_set l i x) j = nth_error l j.
Proof.
  induction l as [|a l IH]; intros [|i] [|j] Hij; cbn; auto;
    try contradiction.
Qed.

(** A non-final step of a discrete modality keeps the modality bound to the
    same tensor, with the same shape and number of entries; the entries the
    jump mask does not select keep their value, and no other tensor of the
    store changes. *)
Theorem discrete_step_writes_masked_entries_only
        (P : primitives) (self : MultimodalSolver) (div_free : div_free_arg)
        (path : MixtureDiscreteProbPath) (i : nat) (n : Z)
        (t_i : Q) (t_idx : tensor) (h : Q) (x : addr)
        (shape : list nat) (data : list Q) (w : world P)
        (s : list nat) (cur : list nat)
        (delta_1 delta_t : list (list bool)) (u : list (list Q)) :
  let V := last shape 0%nat in
  let x_1 := fst (categorical P (map (softmax P) (rows shape data)) (gen w)) in
  let g1 := snd (categorical P (map (softmax P) (rows shape data)) (gen w)) in
  shape <> [] ->
  Z.of_nat i <> (n - 1)%Z ->
  match source_distribution_p self with
  | Some (s_p, _) => s_p = [V]
  | None => True
  end ->
  one_hot_all V x_1 = inr delta_1 ->
  rate_field (source_distribution_p self) (div_free_at div_free t_idx)
             (alpha_t (scheduler path t_i)) (d_alpha_t (scheduler path t_i))
             delta_1
  = inr u ->
  nth_error (heap w) x = Some (Long s cur) ->
  s = removelast shape ->
  one_hot_all V cur = inr delta_t ->
  let mask_jump :=
    jump_mask P h (fst (rand P (prod_shape s) g1))
              (map Qsum (zero_self_transitions delta_t u)) in
  let run := discrete_update self div_free path i n t_i t_idx h x
                             (Float shape data) w in
  fst run = inr x
  /\ (exists cur',
        nth_error (heap (snd run)) x = Some (Long s cur')
        /\ length cur' = length cur
        /\ forall c, nth c mask_jump false = false ->
                     nth_error cur' c = nth_error cur c)
  /\ forall a, a <> x ->
               nth_error (heap (snd run)) a = nth_error (heap w) a.
Proof.
  intros V x_1 g1 Hshape Hi Hsrc Hd1 Hu Hx Hs Hdt mask_jump run.
  subst run.
  rewrite (discrete_update_non_final P self div_free path i n t_i t_idx h x
             shape data w s cur delta_1 delta_t u
             Hshape Hi Hsrc Hd1 Hu Hx Hs Hdt).
  cbv zeta. fold V x_1 g1. fold mask_jump.
  destruct (existsb (fun b : bool => b) mask_jump); cbn [fst snd heap].
  - split; [reflexivity|]. split.
    + eexists. split.
      * apply nth_error_list_set_same. apply nth_error_Some. congruence.
      * split; [apply length_scatter|].
        intros c Hc. now apply nth_error_scatter_unmasked.
    + intros a Ha. apply nth_error_list_set_other. congruence.
  - split; [reflexivity|]. split; [|reflexivity].
    exists cur. split; [exact Hx|]. split; reflexivity.
Qed.

Lemma discrete_step_writes_masked_entries_only_witness :
  let run := discrete_update two_class_solver (DivConst 0) linear_path 0 2 0
                             (time_tensor 1 0) (1 # 2) 0%nat
                             (Float [1; 2]%nat [0; 1]%Q)
                             (fixed_world [Long [1%nat] [0%nat]]) in
  fst run = inr 0%nat
  /\ exists cur',
      nth_error (heap (snd run)) 0 = Some (Long [1%nat] cur')
      /\ length cur' = 1%nat.
Proof.
  cbv zeta.
  destruct (discrete_step_writes_masked_entries_only fixed_primitives
              two_class_solver (DivConst 0) linear_path 0 2 0
              (time_tensor 1 0) (1 # 2) 0%nat [1; 2]%nat [0; 1]%Q
              (fixed_world [Long [1%nat] [0%nat]]) [1%nat] [0%nat]
              [one_hot 2 1] [one_hot 2 0]
              [rate_row 0 1 (one_hot 2 1)])
    as (Hr & (cur' & Hc & Hl & _) & _);
    try reflexivity; try discriminate; try exact I.
  split; [exact Hr|]. exists cur'. split; [exact Hc|exact Hl].
Defined.

(** ** Intensities *)






Lemma Forall_zip_with {A B C : Type} (PC : C -> Prop) (f : A -> B -> C)
      (PA : A -> Prop) (PB : B -> Prop) :
  (forall a b, PA a -> PB b -> PC (f a b)) ->
  forall (l : list A) (m : list B),
    Forall PA l -> Forall PB m -> Forall PC (zip_with f l m).
Proof.
  intros Hf. induction l as [|a l IH]; intros [|b m] Hl Hm; cbn;
    try constructor; inversion Hl; inversion Hm; subst; auto.
Qed.

Lemma Qsum_nonneg (l : list Q) :
  Forall (fun r => (0 <= r)%Q) l -> (0 <= Qsum l)%Q.
Proof.
  induction 1 as [|r l Hr _ IH]; cbn; [apply Qle_refl|].
  change (0 <= r + Qsum l)%Q. lra.
Qed.

Lemma to_float_nonneg (b : bool) : (0 <= to_float b)%Q.
Proof. destruct b; cbn; lra. Qed.

Lemma Qdiv_nonneg (a b : Q) : (0 <= a)%Q -> (0 < b)%Q -> (0 <= a / b)%Q.
Proof.
  intros Ha Hb. apply Qle_shift_div_l; [exact Hb|]. lra.
Qed.

(** Under a monotone schedule ([0 <= k_t < 1], [0 <= d_k_t], and
    [0 < k_t] when the divergence-free term applies) and a nonnegative
    source distribution, every rate of the zeroed field is nonnegative, and
    so is every intensity. *)
Theorem rates_nonnegative
        (source : option (list nat * list Q)) (div_free_t k_t d_k_t : Q)
        (delta_1 delta_t : list (list bool)) (u : list (list Q)) :
  (0 <= k_t)%Q -> (k_t < 1)%Q -> (0 <= d_k_t)%Q ->
  ((0 < div_free_t)%Q -> (0 < k_t)%Q) ->
  match source with
  | Some (_, p_0) => Forall (fun p => (0 <= p)%Q) p_0
  | None => True
  end ->
  rate_field source div_free_t k_t d_k_t delta_1 = inr u ->
  Forall (Forall (fun r => (0 <= r)%Q)) (zero_self_transitions delta_t u)
  /\ Forall (fun lam => (0 <= lam)%Q)
            (map Qsum (zero_self_transitions delta_t u)).
Proof.
  intros Hk0 Hk1 Hd Hkpos Hp Hu.
  assert (Hbase : forall row : list bool,
             Forall (fun r => (0 <= r)%Q) (rate_row k_t d_k_t row)).
  { intros row. unfold rate_row. apply Forall_map, Forall_forall.
    intros e _. apply Qmult_le_0_compat; [|apply to_float_nonneg].
    apply Qdiv_nonneg; lra. }
  assert (Hfield : Forall (Forall (fun r => (0 <= r)%Q)) u).
  { unfold rate_field in Hu.
    destruct (Qlt_bool 0 div_free_t) eqn:Ec.
    - apply Qlt_bool_iff in Ec. specialize (Hkpos Ec).
      destruct source as [[s p_0]|]; [|discriminate].
      injection Hu as <-.
      apply Forall_zip_with
        with (PA := Forall (fun r => (0 <= r)%Q))
             (PB := Forall (fun r => (0 <= r)%Q)).
      + intros a b Ha Hb. unfold add_rows.
        apply Forall_zip_with
          with (PA := fun r => (0 <= r)%Q) (PB := fun r => (0 <= r)%Q);
          [|exact Ha|exact Hb].
        intros x y Hx Hy. cbv beta. lra.
      + apply Forall_map, Forall_forall. intros row _. apply Hbase.
      + apply Forall_map, Forall_forall. intros row _.
        unfold div_free_row.
        apply Forall_zip_with
          with (PA := fun p => (0 <= p)%Q) (PB := fun _ => True);
          [|exact Hp|apply Forall_forall; auto].
        intros p e Hp0 _.
        apply Qmult_le_0_compat.
        * apply Qdiv_nonneg.
          -- apply Qmult_le_0_compat; lra.
          -- apply Qmult_lt_0_compat; lra.
        * pose proof (to_float_nonneg e) as He.
          assert (H1 : (0 <= (1 - k_t) * p)%Q)
            by (apply Qmult_le_0_compat; lra).
          assert (H2 : (0 <= k_t * to_float e)%Q)
            by (apply Qmult_le_0_compat; lra).
          lra.
    - injection Hu as <-. apply Forall_map, Forall_forall.
      intros row _. apply Hbase. }
  assert (Hz : Forall (Forall (fun r => (0 <= r)%Q))
                      (zero_self_transitions delta_t u)).
  { unfold zero_self_transitions.
    apply Forall_zip_with
      with (PA := fun _ => True) (PB := Forall (fun r => (0 <= r)%Q));
      [|apply Forall_forall; auto|exact Hfield].
    intros d row _ Hrow. unfold zero_self.
    apply Forall_zip_with
      with (PA := fun _ => True) (PB := fun r => (0 <= r)%Q);
      [|apply Forall_forall; auto|exact Hrow].
    intros b r _ Hr. destruct b; [apply Qle_refl|exact Hr]. }
  split; [exact Hz|].
  apply Forall_map. eapply Forall_impl; [|exact Hz].
  intros row Hrow. now apply Qsum_nonneg.
Qed.

Lemma rates_nonnegative_witness :
  Forall (Forall (fun r => (0 <= r)%Q))
         (zero_self_transitions
            [one_hot 2 0]
            (zip_with add_rows
               [rate_row (1 # 2) 1 (one_hot 2 1)]
               [div_free_row (1 # 10) (1 # 2) 1 [1 # 2; 1 # 2]
                             (one_hot 2 1)])).
Proof.
  apply (rates_nonnegative (Some ([2%nat], [1 # 2; 1 # 2]%Q)) (1 # 10)
           (1 # 2) 1 [one_hot 2 1] [one_hot 2 0]).
  - discriminate.
  - reflexivity.
  - discriminate.
  - intros _. reflexivity.
  - repeat constructor; discriminate.
  - reflexivity.
Defined.

(** ** One clock for all modalities *)

Lemma bind_inr (P : primitives) {A B : Type} (m : M P A) (k : A -> M P B)
      (w w' : world P) (b : B) :
  bind m k w = (inr b, w') ->
  exists a w1, m w = (inr a, w1) /\ k a w1 = (inr b, w').
Proof.
  unfold bind. destruct (m w) as [[e|a] w1]; [discriminate|].
  intros H. now exists a, w1.
Qed.

Lemma item_inr (P : primitives) {A : Type} (l : list A) (i : nat)
      (w w' : world P) (a : A) :
  item l i w = (inr a, w') -> nth_error l i = Some a /\ w' = w.
Proof.
  unfold item. destruct (nth_error l i); [|discriminate].
  now intros [= -> ->].
Qed.

Lemma list_set_repeat {A : Type} (new old : A) (idx k : nat) :
  list_set (repeat new idx ++ repeat old (S k)) idx new
  = repeat new (S idx) ++ repeat old k.
Proof.
  rewrite list_set_app_r by (rewrite repeat_length; lia).
  rewrite repeat_length, Nat.sub_diag. cbn [repeat list_set].
  rewrite repeat_cons, <- app_assoc. reflexivity.
Qed.

Lemma update_modalities_times (P : primitives) (self : MultimodalSolver)
      (div_free : div_free_arg) (i : nat) (n : Z) (t_i h : Q)
      (outputs : list tensor) (old : tensor) :
  forall (configs : list config) (idx : nat) (states : list addr)
         (w w' : world P) (states' : list addr) (t' : list tensor),
    update_modalities self div_free i n t_i h outputs configs idx states
                      (repeat (tensor_add_scalar old h) idx
                       ++ repeat old (length configs)) w
    = (inr (states', t'), w') ->
    t' = repeat (tensor_add_scalar old h) (idx + length configs).
Proof.
  induction configs as [|c rest IH]; intros idx states w w' states' t' H.
  - cbn in H. injection H as _ <- _. cbn.
    now rewrite app_nil_r, Nat.add_0_r.
  - cbn [update_modalities length] in H.
    apply bind_inr in H. destruct H as (model_out & w1 & _ & H).
    apply bind_inr in H. destruct H as (x & w2 & _ & H).
    apply bind_inr in H. destruct H as (t_idx & w3 & Ht & H).
    apply item_inr in Ht. destruct Ht as [Ht _].
    rewrite nth_error_app2 in Ht by (rewrite repeat_length; lia).
    rewrite repeat_length, Nat.sub_diag in Ht. cbn in Ht.
    injection Ht as <-.
    apply bind_inr in H. destruct H as (x' & w4 & _ & H).
    rewrite list_set_repeat in H. apply IH in H.
    rewrite H. f_equal. cbn. lia.
Qed.

Lemma modalities_share_the_clock_aux
      (P : primitives) (self : MultimodalSolver) (div_free : div_free_arg)
      (i : nat) (n : Z) (t_i h : Q) (outputs : list tensor)
      (batch_size : nat) (states states' : list addr)
      (t' : list tensor) (w w' : world P) :
  update_modalities self div_free i n t_i h outputs (modality_configs self)
                    0 states
                    (repeat (time_tensor batch_size t_i)
                            (length (modality_configs self)))
                    w
  = (inr (states', t'), w') ->
  t' = repeat (Float [batch_size]
                     (map (fun e => (e + h)%Q) (repeat t_i batch_size)))
              (length (modality_configs self)).
Proof.
  intros H.
  apply (update_modalities_times P self div_free i n t_i h outputs
           (time_tensor batch_size t_i) (modality_configs self) 0) in H.
  rewrite H. reflexivity.
Qed.

(** After the modality loop of a step every modality's time tensor is the
    step's time tensor advanced by the same [h]: the modalities never drift
    apart in time. *)
Theorem modalities_share_the_clock
        (P : primitives) (self : MultimodalSolver) (div_free : div_free_arg)
        (i : nat) (n : Z) (t_i h : Q) (outputs : list tensor)
        (batch_size : nat) (states states' : list addr)
        (t' : list tensor) (w w' : world P) :
  update_modalities self div_free i n t_i h outputs (modality_configs self)
                    0 states
                    (repeat (time_tensor batch_size t_i)
                            (length (modality_configs self)))
                    w
  = (inr (states', t'), w') ->
  t' = repeat (Float [batch_size]
                     (repeat (t_i + h)%Q batch_size))
              (length (modality_configs self)).
Proof.
  intros H.
  apply (update_modalities_times P self div_free i n t_i h outputs
           (time_tensor batch_size t_i) (modality_configs self) 0) in H.
  rewrite H. cbn [Nat.add]. unfold time_tensor, tensor_add_scalar.
  rewrite map_repeat. reflexivity.
Qed.

Lemma modalities_share_the_clock_witness :
  exists states' t' w',
    update_modalities unit_velocity_solver (DivConst 0) 0 2 0 (1 # 2)
                      [Float [1%nat] [1]]%Q [continuous] 0 [0%nat]
                      [time_tensor 1 0]
                      (fixed_world [Float [1%nat] [0]])
    = (inr (states', t'), w')
    /\ t' = [Float [1%nat] [0 + (1 # 2)]%Q].
Proof.
  eexists _, _, _. split; [reflexivity|].
  exact (modalities_share_the_clock fixed_primitives unit_velocity_solver
           (DivConst 0) 0 2 0 (1 # 2) [Float [1%nat] [1]]%Q 1 [0%nat] _ _
           (fixed_world [Float [1%nat] [0]]) _ eq_refl).
Defined.

(** Recording compares the batch-sized time tensor with the time grid; when
    the batch size is neither 1 nor the length of the grid, and the grid has
    more than one point, the comparison cannot broadcast: the first step
    with [return_intermediates] raises after the modalities were updated. *)
Theorem recording_needs_matching_batch
        (P : primitives) (self : MultimodalSolver) (div_free : div_free_arg)
        (enable_grad : bool) (d : discretization) (time_grid : list Q)
        (batch_size i : nat) (states : list addr)
        (intermediates : list (list addr)) (xs outputs : list tensor)
        (states' : list addr) (t' : list tensor) (w w1 : world P) :
  let t_i := nth i (t_discretization d) 0%Q in
  let h := (nth (S i) (t_discretization d) 0 - t_i)%Q in
  let t := repeat (time_tensor batch_size t_i) (length states) in
  length states = length (modality_configs self) ->
  states <> [] ->
  fst (mapM (@load P) states w) = inr xs ->
  model self xs t = Seq outputs ->
  length outputs = length states ->
  update_modalities self div_free i (n_steps d) t_i h outputs
                    (modality_configs self) 0 states t w
  = (inr (states', t'), w1) ->
  batch_size <> 1%nat ->
  length time_grid <> 1%nat ->
  batch_size <> length time_grid ->
  step self div_free true enable_grad d time_grid batch_size i
       (states, intermediates) w
  = (inl RuntimeError, w1).
Proof.
  intros t_i h t Hlen Hne Hload Hmodel Hout Hupd Hb1 Hg1 Hbg.
  unfold step. cbv zeta. fold t_i. fold h. fold t.
  unfold bind at 1.
  pose proof (mapM_load_world P states w) as Hw.
  destruct (mapM (@load P) states w) as [r w0]. cbn in Hload, Hw.
  subst r w0. rewrite Hmodel.
  apply Nat.eqb_eq in Hout. rewrite Hout. cbn [negb].
  unfold bind at 1. rewrite Hupd.
  assert (Hlen' : length states' = length states).
  { destruct (framed_update_modalities_length P [] self div_free i
                (n_steps d) t_i h outputs (modality_configs self) 0 states t)
      with (w := w) as [_ Hpost].
    - apply Forall_forall. intros a _. apply Nat.le_0_l.
    - exists (heap w). reflexivity.
    - rewrite Hupd in Hpost. apply (Hpost _ eq_refl). }
  subst t. rewrite Hlen in Hupd.
  apply modalities_share_the_clock_aux in Hupd.
  destruct states' as [|s rest]; [destruct states; [contradiction|discriminate]|].
  rewrite Hupd. rewrite <- Hlen.
  destruct states as [|s0 states0]; [contradiction|].
  assert (Hc : tensor_contains time_grid
                 (float_data
                    (Float [batch_size]
                           (map (fun e => (e + h)%Q) (repeat t_i batch_size))))
               = inl RuntimeError).
  { cbn [float_data]. unfold tensor_contains.
    rewrite length_map, repeat_length.
    apply Nat.eqb_neq in Hb1, Hg1, Hbg. rewrite Hb1, Hg1, Hbg.
    reflexivity. }
  cbn [length repeat record_intermediates].
  unfold bind, item. cbn [nth_error]. unfold ret at 1.
  rewrite Hc. reflexivity.
Qed.

Lemma recording_needs_matching_batch_witness :
  let d := {| t_discretization := [0; 1 # 2; 1]%Q;
              n_steps := 2;
              t_final := None |} in
  fst (step pair_velocity_solver (DivConst 0) true true d [0; 1 # 2; 1]%Q
            2 0 ([0%nat], [[0%nat]])
            (fixed_world [Float [2%nat] [0; 0]]))
  = inl RuntimeError.
Proof.
  cbv zeta.
  epose proof (recording_needs_matching_batch fixed_primitives
              pair_velocity_solver (DivConst 0) true
              {| t_discretization := [0; 1 # 2; 1]%Q;
                 n_steps := 2;
                 t_final := None |}
              [0; 1 # 2; 1]%Q 2 0 [0%nat] [[0%nat]]
              [Float [2%nat] [0; 0]]%Q [Float [2%nat] [1; 1]]%Q
              _ _ (fixed_world [Float [2%nat] [0; 0]]) _
              eq_refl ltac:(discriminate) eq_refl eq_refl eq_refl eq_refl)
    as H.
  exact (f_equal fst (H ltac:(discriminate) ltac:(discriminate)
                        ltac:(discriminate))).
Defined.

(** The same seen from [sample]: a batch of two and a grid of three points
    cannot be recorded. *)
Example batch_of_two_cannot_be_recorded :
  fst (sample true pair_velocity_solver [0%nat] None (DivConst 0) "euler"
              [0; 1 # 2; 1]%Q true false false
              (fixed_world [Float [2%nat] [0; 0]]))
  = inl RuntimeError.
Proof. vm_compute. reflexivity. Qed.

(** ** Reordering for an ascending grid *)

Lemma insert_index_last (g : list Q) (k : nat) :
  forall sorted : list nat,
    Forall (fun j => (nth j g 0 <= nth k g 0)%Q) sorted ->
    insert_index g k sorted = sorted ++ [k].
Proof.
  induction 1 as [|j sorted Hj _ IH]; cbn; [reflexivity|].
  apply Qle_bool_iff in Hj. rewrite Hj, IH. reflexivity.
Qed.

Lemma argsort_ascending (g : list Q) :
  (forall i j, (i <= j < length g)%nat -> (nth i g 0 <= nth j g 0)%Q) ->
  argsort g = seq 0 (length g).
Proof.
  intros Hsorted. unfold argsort.
  assert (H : forall m k, (k + m <= length g)%nat ->
                fold_left (fun acc i => insert_index g i acc) (seq k m)
                          (seq 0 k)
                = seq 0 (k + m)).
  { induction m as [|m IH]; intros k Hk; cbn [seq fold_left].
    - now rewrite Nat.add_0_r.
    - rewrite insert_index_last.
      + rewrite <- seq_S. rewrite IH by lia. f_equal. lia.
      + apply Forall_forall. intros j Hj. apply in_seq in Hj.
        apply Hsorted. lia. }
  exact (H (length g) 0%nat (Nat.le_refl _)).
Qed.

Lemma skipn_nth_error {A : Type} :
  forall (l : list A) (k : nat) (a : A),
    nth_error l k = Some a -> skipn k l = a :: skipn (S k) l.
Proof.
  induction l as [|x l IH]; intros [|k] a H; cbn in *; try discriminate.
  - now injection H as ->.
  - now apply IH.
Qed.

Lemma mapM_item_seq (P : primitives) {A : Type} (traj : list A)
      (w : world P) :
  forall n k,
    (k + n <= length traj)%nat ->
    mapM (item (P := P) traj) (seq k n) w = (inr (firstn n (skipn k traj)), w).
Proof.
  induction n as [|n IH]; intros k Hk; cbn [seq mapM]; [reflexivity|].
  destruct (nth_error traj k) as [a|] eqn:Ea;
    [|apply nth_error_None in Ea; lia].
  unfold bind at 1. unfold item at 1. rewrite Ea. cbn [ret].
  unfold bind at 1. rewrite IH by lia. cbn [ret].
  rewrite (skipn_nth_error traj k a Ea). reflexivity.
Qed.

Lemma mapM_item_seq_short (P : primitives) {A : Type} (traj : list A)
      (w : world P) :
  forall n k,
    (k <= length traj < k + n)%nat ->
    mapM (item (P := P) traj) (seq k n) w = (inl IndexError, w).
Proof.
  induction n as [|n IH]; intros k Hk; [lia|]. cbn [seq mapM].
  unfold bind at 1. unfold item at 1.
  destruct (nth_error traj k) as [a|] eqn:Ea; [|reflexivity].
  cbn [ret]. unfold bind at 1.
  assert (k < length traj)%nat by (apply nth_error_Some; congruence).
  rewrite IH by lia. reflexivity.
Qed.

(** For an ascending time grid the reordering at return is the identity on
    the first [len(time_grid)] recorded snapshots; when fewer snapshots were
    recorded than the grid has points, it raises [IndexError]. *)
Theorem ascending_grid_keeps_recorded_order
        (P : primitives) (time_grid : list Q) (traj : list addr)
        (w : world P) :
  (forall i j, (i <= j < length time_grid)%nat ->
               (nth i time_grid 0 <= nth j time_grid 0)%Q) ->
  ((length time_grid <= length traj)%nat ->
   mapM (item traj) (argsort time_grid) w
   = (inr (firstn (length time_grid) traj), w))
  /\ ((length traj < length time_grid)%nat ->
      mapM (item traj) (argsort time_grid) w = (inl IndexError, w)).
Proof.
  intros Hsorted. rewrite (argsort_ascending time_grid Hsorted). split.
  - intros Hlen. rewrite mapM_item_seq by (cbn; lia). reflexivity.
  - intros Hlen. apply mapM_item_seq_short. lia.
Qed.

Lemma ascending_grid_keeps_recorded_order_witness :
  mapM (item [5; 6; 7]%nat) (argsort [0; 1 # 2; 1]%Q)
       (fixed_world [])
  = (inr [5; 6; 7]%nat, fixed_world []).
Proof.
  apply (ascending_grid_keeps_recorded_order fixed_primitives
           [0; 1 # 2; 1]%Q [5; 6; 7]%nat (fixed_world [])).
  - intros i j Hij. cbn [length] in Hij.
    destruct i as [|[|[|i]]]; destruct j as [|[|[|j]]]; try lia;
      cbn; discriminate.
  - cbn. lia.
Defined.

(** ** What the discretization accepts *)

(** With a numeric [step_size] the discretization raises [IndexError] on an
    empty grid; otherwise it fails the assertion exactly when the span of
    the grid is not larger than the step size, divides by zero exactly when
    the step size is 0 and the span positive, and succeeds exactly when the
    step size is not 0 and smaller than the span. *)
Theorem discretize_outcomes (time_grid : list Q) (h : Q) :
  match time_grid with
  | [] => discretize time_grid (Some h) = inl IndexError
  | t_init :: _ =>
      let span := (last time_grid t_init - t_init)%Q in
      (discretize time_grid (Some h) = inl AssertionError
       <-> (span <= h)%Q)
      /\ (discretize time_grid (Some h) = inl ZeroDivisionError
          <-> (h == 0)%Q /\ (0 < span)%Q)
      /\ ((exists d, discretize time_grid (Some h) = inr d)
          <-> ~ (h == 0)%Q /\ (h < span)%Q)
  end.
Proof.
  destruct time_grid as [|t_init rest]; [reflexivity|].
  cbv zeta. unfold discretize.
  set (span := (last (t_init :: rest) t_init - t_init)%Q).
  destruct (Qlt_bool h span) eqn:Elt; cbn [negb].
  - apply Qlt_bool_iff in Elt.
    destruct (Qeq_bool h 0) eqn:Ez.
    + apply Qeq_bool_iff in Ez.
      split; [split; [discriminate|intros H; lra]|].
      split; [split; [intros _; split; [exact Ez|lra]|reflexivity]|].
      split; [intros [d H]; discriminate H|intros [H _]; contradiction].
    + apply Qeq_bool_false_iff in Ez.
      split; [split; [discriminate|intros H; lra]|].
      split; [split; [discriminate|intros [H _]; contradiction]|].
      split; [intros _; split; assumption|intros _; eexists; reflexivity].
  - assert (Hle : (span <= h)%Q).
    { destruct (Qlt_le_dec h span) as [H | H]; [|exact H].
      apply Qlt_bool_iff in H. congruence. }
    split; [split; [intros _; exact Hle|reflexivity]|].
    split; [split; [discriminate|intros [H1 H2]; lra]|].
    split; [intros [d H]; discriminate H|intros [_ H]; lra].
Qed.

(** ** Empty input *)

(** Called without initial states, [sample] never returns and touches
    nothing: it raises [ValueError] when the solver has modalities, and
    otherwise [NotImplementedError], [AssertionError] or, when the method is
    ["euler"] and the divergence-free check passes, the [IndexError] of
    [x_init[0]]. *)
Theorem empty_x_init_raises
        (P : primitives) (tqdm_available : bool) (self : MultimodalSolver)
        (step_size : option Q) (div_free : div_free_arg)
        (method : string) (time_grid : list Q)
        (return_intermediates enable_grad verbose : bool) (w : world P) :
  exists e,
    sample tqdm_available self [] step_size div_free method time_grid
           return_intermediates enable_grad verbose w
    = (inl e, w)
    /\ (e = ValueError <-> modality_configs self <> [])
    /\ (e = IndexError
        <-> modality_configs self = []
            /\ method = "euler"%string
            /\ (div_free_nonzero div_free = false
                \/ source_distribution_p self <> None))
    /\ (e = ValueError \/ e = NotImplementedError \/ e = AssertionError
        \/ e = IndexError).
Proof.
  unfold sample. cbn [length].
  destruct (modality_configs self) as [|c configs] eqn:Ec; cbn [length Nat.eqb negb].
  2:{ exists ValueError. split; [reflexivity|].
      split; [split; [discriminate|reflexivity]|].
      split; [split; [discriminate|intros [H _]; discriminate H]|].
      now left. }
  destruct (String.eqb method "euler") eqn:Em; cbn [negb].
  2:{ apply String.eqb_neq in Em.
      exists NotImplementedError. split; [reflexivity|].
      split; [split; [discriminate|intros H; now contradiction H]|].
      split; [split; [discriminate|intros (_ & H & _); contradiction]|].
      auto. }
  apply String.eqb_eq in Em.
  destruct (div_free_nonzero div_free) eqn:Ed; cbn [andb].
  - destruct (source_distribution_p self) as [s|] eqn:Es.
    + exists IndexError. split; [reflexivity|].
      split; [split; [discriminate|intros H; now contradiction H]|].
      split; [|auto].
      split; [|reflexivity]. intros _.
      split; [reflexivity|]. split; [exact Em|]. right. discriminate.
    + exists AssertionError. split; [reflexivity|].
      split; [split; [discriminate|intros H; now contradiction H]|].
      split; [|auto].
      split; [discriminate|].
      intros (_ & _ & [H | H]); [discriminate H|now contradiction H].
  - exists IndexError. split; [reflexivity|].
    split; [split; [discriminate|intros H; now contradiction H]|].
    split; [|auto].
    split; [|reflexivity]. intros _.
    split; [reflexivity|]. split; [exact Em|]. now left.
Qed.

(** ** The divergence-free term and continuous modalities *)

Lemma bind_ext (P : primitives) {A B : Type} (m : M P A)
      (k k' : A -> M P B) (w : world P) :
  (forall a w1, k a w1 = k' a w1) -> bind m k w = bind m k' w.
Proof.
  intros H. unfold bind. destruct (m w) as [[e|a] w1]; [reflexivity|apply H].
Qed.

Lemma update_modalities_continuous (P : primitives) (self : MultimodalSolver)
      (div_free div_free' : div_free_arg) (i : nat) (n : Z) (t_i h : Q)
      (outputs : list tensor) :
  forall (configs : list config),
    Forall (fun c => c = continuous) configs ->
    forall (idx : nat) (states : list addr) (t : list tensor) (w : world P),
      update_modalities self div_free i n t_i h outputs configs idx states t w
      = update_modalities self div_free' i n t_i h outputs configs idx
                          states t w.
Proof.
  induction 1 as [|c configs -> _ IH]; intros idx states t w;
    [reflexivity|].
  cbn [update_modalities].
  apply bind_ext. intros model_out w1.
  apply bind_ext. intros x w2.
  apply bind_ext. intros t_idx w3.
  apply bind_ext. intros x' w4. apply IH.
Qed.

Lemma steps_continuous (P : primitives) (self : MultimodalSolver)
      (div_free div_free' : div_free_arg)
      (return_intermediates enable_grad : bool) (d : discretization)
      (time_grid : list Q) (batch_size : nat) :
  Forall (fun c => c = continuous) (modality_configs self) ->
  forall (count i : nat) (st : list addr * list (list addr)) (w : world P),
    steps self div_free return_intermediates enable_grad d time_grid
          batch_size count i st w
    = steps self div_free' return_intermediates enable_grad d time_grid
            batch_size count i st w.
Proof.
  intros Hc. induction count as [|count IH]; intros i st w; [reflexivity|].
  cbn [steps].
  assert (Hstep : step self div_free return_intermediates enable_grad d
                       time_grid batch_size i st w
                  = step self div_free' return_intermediates enable_grad d
                         time_grid batch_size i st w).
  { unfold step. destruct st as [states intermediates]. cbv zeta.
    apply bind_ext. intros xs w1.
    destruct (model self xs _) as [outputs|]; [|reflexivity].
    destruct (negb _); [reflexivity|].
    unfold bind at 1 3.
    rewrite (update_modalities_continuous P self div_free div_free' i
               (n_steps d) _ _ outputs (modality_configs self) Hc).
    reflexivity. }
  unfold bind. rewrite Hstep.
  destruct (step self div_free' return_intermediates enable_grad d
                 time_grid batch_size i st w) as [[e|st'] w1];
    [reflexivity|].
  apply IH.
Qed.

(** For a solver whose modalities are all continuous, [div_free] has no
    influence on what [sample] does, except through the assertion before
    the loop: a callable or nonzero [div_free] without a source distribution
    raises [AssertionError], although no modality would use it. *)
Theorem continuous_solver_ignores_div_free
        (P : primitives) (tqdm_available : bool) (self : MultimodalSolver)
        (x_init : list addr) (step_size : option Q) (div_free : div_free_arg)
        (method : string) (time_grid : list Q)
        (return_intermediates enable_grad verbose : bool) (w : world P) :
  Forall (fun c => c = continuous) (modality_configs self) ->
  let run := fun df => sample tqdm_available self x_init step_size df method
                              time_grid return_intermediates enable_grad
                              verbose w in
  (div_free_nonzero div_free = false \/ source_distribution_p self <> None ->
   run div_free = run (DivConst 0))
  /\ (div_free_nonzero div_free = true ->
      source_distribution_p self = None ->
      length x_init = length (modality_configs self) ->
      method = "euler"%string ->
      run div_free = (inl AssertionError, w)).
Proof.
  intros Hc run. subst run. cbv beta. split.
  - intros Hpass. unfold sample.
    destruct (negb (length x_init =? _)%nat); [reflexivity|].
    destruct (negb (String.eqb method _)); [reflexivity|].
    assert (E : div_free_nonzero div_free
                && match source_distribution_p self with
                   | None => true
                   | Some _ => false
                   end = false).
    { destruct Hpass as [-> | Hs]; [reflexivity|].
      destruct (source_distribution_p self); [apply andb_false_r|].
      now contradiction Hs. }
    rewrite E. cbn [div_free_nonzero Qeq_bool negb andb].
    change (negb (Qeq_bool 0 0)) with false. cbn [andb].
    apply bind_ext. intros x0 w1.
    apply bind_ext. intros v0 w2.
    apply bind_ext. intros b w3.
    apply bind_ext. intros d w4.
    destruct (recording_plan _ _ _ _) as [order time_grid'].
    apply bind_ext. intros states w5.
    apply bind_ext. intros intermediates w6.
    apply bind_ext. intros _ w7.
    unfold bind at 1 3.
    rewrite (steps_continuous P self div_free (DivConst 0)
               return_intermediates enable_grad d time_grid' b Hc).
    reflexivity.
  - intros Hd Hs Hlen Hm. unfold sample.
    apply Nat.eqb_eq in Hlen. rewrite Hlen. subst method.
    rewrite String.eqb_refl, Hd, Hs. reflexivity.
Qed.

Lemma continuous_solver_ignores_div_free_witness :
  let run := fun df => sample true unit_velocity_solver [0%nat] None df
                              "euler" [0; 1]%Q false false false
                              (fixed_world [Float [1%nat] [0]]) in
  run (DivFun (fun _ => 0%Q))
  = (inl AssertionError, fixed_world [Float [1%nat] [0]]).
Proof.
  cbv zeta.
  refine (proj2 (continuous_solver_ignores_div_free fixed_primitives true
                   unit_velocity_solver [0%nat] None (DivFun (fun _ => 0%Q))
                   "euler" [0; 1]%Q false false false
                   (fixed_world [Float [1%nat] [0]]) _)
                eq_refl eq_refl eq_refl eq_refl).
  repeat constructor.
Defined.
